(** * Jenkins' lookup3 hash as used in the Linux kernel ([jhash.c])

    A shallow embedding of [src/jhash.c] and the properties its description
    states about it.

    Data model:
    - a [u32] is a [Z] in [0, 2^32); every operation of the C code that can
      leave that range is followed by [wrap32], the reduction modulo 2^32
      that unsigned arithmetic performs;
    - a [u8] is a [Byte.byte];
    - the key buffer is a [list byte]; the cursor [k] is an offset into it
      and a read outside the buffer (undefined behaviour in C) is the
      explicit outcome [OutOfBounds];
    - [__get_unaligned_cpu32] reads a word in the byte order of the CPU
      (the header says: "The result depends on endianness"), so the byte
      order is a parameter of the model;
    - the [while] loop is a fixpoint on a fuel counter; running out of fuel
      is the outcome [OutOfFuel], and [jhash] supplies enough of it
      (proved below);
    - the [switch] with fall-through is the list of its labelled
      statements, entered at the matching label and left at [break];
    - the macros [jhash_size] and [jhash_mask] are functions on [Z], and
      the debug [main] is a fold over the argument buffers that returns
      the value it prints. *)

From Stdlib Require Import ZArith List Lia Bool.
From Stdlib Require Import Strings.Byte.
Import ListNotations.

Local Open Scope Z_scope.

(** ** Outcomes *)

Inductive result (A : Type) : Type :=
| Ok (x : A)
| OutOfBounds
| OutOfFuel.

Arguments Ok {A} x.
Arguments OutOfBounds {A}.
Arguments OutOfFuel {A}.

Definition bind {A B : Type} (r : result A) (f : A -> result B) : result B :=
  match r with
  | Ok x => f x
  | OutOfBounds => OutOfBounds
  | OutOfFuel => OutOfFuel
  end.

Notation "x <- e ;; k" := (bind e (fun x => k))
  (at level 61, e at next level, right associativity).

(** ** 32-bit unsigned arithmetic *)

Definition wrap32 (x : Z) : Z := x mod 2 ^ 32.

Definition add32 (x y : Z) : Z := wrap32 (x + y).
Definition sub32 (x y : Z) : Z := wrap32 (x - y).
Definition neg32 (x : Z) : Z := wrap32 (- x).
Definition shl32 (x n : Z) : Z := wrap32 (Z.shiftl x n).
Definition shr32 (x n : Z) : Z := Z.shiftr x n.
Definition xor32 (x y : Z) : Z := Z.lxor x y.

(** [(u32)k[i]]: a byte read as an unsigned value. *)
Definition u8_to_u32 (x : byte) : Z := Z.of_N (Byte.to_N x).

(** [static inline u32 rol32(u32 word, unsigned int shift)
      { return (word << shift) | (word >> ((-shift) & 31)); }] *)
Definition rol32 (word shift : Z) : Z :=
  Z.lor (shl32 word shift) (shr32 word (Z.land (neg32 shift) 31)).

(** ** Reading the key *)

Inductive byte_order : Type := LittleEndian | BigEndian.

(** The value of a [u32] object whose four bytes, in increasing address
    order, are [b0 b1 b2 b3]. *)
Definition word_of_bytes (cpu : byte_order) (b0 b1 b2 b3 : byte) : Z :=
  match cpu with
  | LittleEndian =>
      Z.lor (Z.lor (Z.lor (u8_to_u32 b0) (Z.shiftl (u8_to_u32 b1) 8))
                   (Z.shiftl (u8_to_u32 b2) 16))
            (Z.shiftl (u8_to_u32 b3) 24)
  | BigEndian =>
      Z.lor (Z.lor (Z.lor (u8_to_u32 b3) (Z.shiftl (u8_to_u32 b2) 8))
                   (Z.shiftl (u8_to_u32 b1) 16))
            (Z.shiftl (u8_to_u32 b0) 24)
  end.

(** [k[i]] for a cursor at offset [k] of the buffer [mem]. *)
Definition read_u8 (mem : list byte) (k i : nat) : result Z :=
  match nth_error mem (k + i) with
  | Some x => Ok (u8_to_u32 x)
  | None => OutOfBounds
  end.

(** [__get_unaligned_cpu32(p)]: the four bytes at [p], as the CPU sees
    them. *)
Definition get_unaligned_cpu32 (cpu : byte_order) (mem : list byte) (p : nat)
  : result Z :=
  match nth_error mem p, nth_error mem (p + 1),
        nth_error mem (p + 2), nth_error mem (p + 3) with
  | Some b0, Some b1, Some b2, Some b3 => Ok (word_of_bytes cpu b0 b1 b2 b3)
  | _, _, _, _ => OutOfBounds
  end.

(** ** The mixing macros *)

(** [__jhash_mix(a, b, c)] *)
Definition jhash_mix (t : Z * Z * Z) : Z * Z * Z :=
  let '(a, b, c) := t in
  let a := sub32 a c in let a := xor32 a (rol32 c 4) in let c := add32 c b in
  let b := sub32 b a in let b := xor32 b (rol32 a 6) in let a := add32 a c in
  let c := sub32 c b in let c := xor32 c (rol32 b 8) in let b := add32 b a in
  let a := sub32 a c in let a := xor32 a (rol32 c 16) in let c := add32 c b in
  let b := sub32 b a in let b := xor32 b (rol32 a 19) in let a := add32 a c in
  let c := sub32 c b in let c := xor32 c (rol32 b 4) in let b := add32 b a in
  (a, b, c).

(** [__jhash_final(a, b, c)] *)
Definition jhash_final (t : Z * Z * Z) : Z * Z * Z :=
  let '(a, b, c) := t in
  let c := xor32 c b in let c := sub32 c (rol32 b 14) in
  let a := xor32 a c in let a := sub32 a (rol32 c 11) in
  let b := xor32 b a in let b := sub32 b (rol32 a 25) in
  let c := xor32 c b in let c := sub32 c (rol32 b 16) in
  let a := xor32 a c in let a := sub32 a (rol32 c 4) in
  let b := xor32 b a in let b := sub32 b (rol32 a 14) in
  let c := xor32 c b in let c := sub32 c (rol32 b 24) in
  (a, b, c).

(** [#define JHASH_INITVAL 0xdeadbeef] *)
Definition JHASH_INITVAL : Z := 0xdeadbeef.

(** ** The state of one call *)

Record state : Type := mkState {
  st_key : list byte;   (* the memory [key] points to; never written *)
  st_k : nat;           (* the cursor [k], as an offset into [st_key] *)
  st_length : Z;        (* [length] *)
  st_a : Z;
  st_b : Z;
  st_c : Z
}.

Definition regs (s : state) : Z * Z * Z := (st_a s, st_b s, st_c s).

Definition set_regs (s : state) (t : Z * Z * Z) : state :=
  let '(a, b, c) := t in
  mkState (st_key s) (st_k s) (st_length s) a b c.

(** [a = b = c = JHASH_INITVAL + length + initval;] with [k = key]. *)
Definition jhash_init (key : list byte) (length initval : Z) : state :=
  let v := add32 (add32 JHASH_INITVAL length) initval in
  mkState key 0 length v v v.

(** ** The bulk loop *)

(** [length > 12] *)
Definition loop_cond (s : state) : bool := 12 <? st_length s.

(** The body of [while (length > 12) { ... }]. *)
Definition loop_body (cpu : byte_order) (s : state) : result state :=
  w0 <- get_unaligned_cpu32 cpu (st_key s) (st_k s) ;;
  let a := add32 (st_a s) w0 in
  w1 <- get_unaligned_cpu32 cpu (st_key s) (st_k s + 4) ;;
  let b := add32 (st_b s) w1 in
  w2 <- get_unaligned_cpu32 cpu (st_key s) (st_k s + 8) ;;
  let c := add32 (st_c s) w2 in
  let '(a, b, c) := jhash_mix (a, b, c) in
  Ok (mkState (st_key s) (st_k s + 12) (sub32 (st_length s) 12) a b c).

Fixpoint jhash_loop (cpu : byte_order) (fuel : nat) (s : state) : result state :=
  if loop_cond s then
    match fuel with
    | O => OutOfFuel
    | S fuel' => s' <- loop_body cpu s ;; jhash_loop cpu fuel' s'
    end
  else Ok s.

(** ** The last block: [switch (length)] with fall-through *)

Inductive reg : Type := RegA | RegB | RegC.

Inductive stmt : Type :=
| AddByte (r : reg) (i : nat) (sh : Z)   (* [r += (u32)k[i] << sh;] *)
| FinalMix                               (* [__jhash_final(a, b, c);] *)
| Break.                                 (* [break;] *)

(** The statements of the switch in source order, each with the [case]
    label in front of it, if any.  [case 9], [case 5] and [case 1] add the
    byte unshifted, that is shifted by 0.  There is no [default]. *)
Definition switch_body : list (option Z * stmt) :=
  [ (Some 12, AddByte RegC 11 24);
    (Some 11, AddByte RegC 10 16);
    (Some 10, AddByte RegC 9 8);
    (Some 9,  AddByte RegC 8 0);
    (Some 8,  AddByte RegB 7 24);
    (Some 7,  AddByte RegB 6 16);
    (Some 6,  AddByte RegB 5 8);
    (Some 5,  AddByte RegB 4 0);
    (Some 4,  AddByte RegA 3 24);
    (Some 3,  AddByte RegA 2 16);
    (Some 2,  AddByte RegA 1 8);
    (Some 1,  AddByte RegA 0 0);
    (None,    FinalMix);
    (Some 0,  Break) ].

Definition label_is (n : Z) (l : option Z) : bool :=
  match l with
  | Some m => n =? m
  | None => false
  end.

(** Where [switch (n)] jumps: the statements from the label [n] to the end
    of the body; nothing when no label matches. *)
Fixpoint switch_jump (n : Z) (body : list (option Z * stmt)) : list stmt :=
  match body with
  | [] => []
  | (l, s) :: rest =>
      if label_is n l then s :: map snd rest else switch_jump n rest
  end.

(** The statements executed from there: those before the first [break]. *)
Fixpoint until_break (ss : list stmt) : list stmt :=
  match ss with
  | [] => []
  | Break :: _ => []
  | s :: rest => s :: until_break rest
  end.

Definition switch_path (n : Z) : list stmt :=
  until_break (switch_jump n switch_body).

Definition get_reg (r : reg) (s : state) : Z :=
  match r with
  | RegA => st_a s
  | RegB => st_b s
  | RegC => st_c s
  end.

Definition set_reg (r : reg) (v : Z) (s : state) : state :=
  match r with
  | RegA => mkState (st_key s) (st_k s) (st_length s) v (st_b s) (st_c s)
  | RegB => mkState (st_key s) (st_k s) (st_length s) (st_a s) v (st_c s)
  | RegC => mkState (st_key s) (st_k s) (st_length s) (st_a s) (st_b s) v
  end.

Definition exec_stmt (st : stmt) (s : state) : result state :=
  match st with
  | AddByte r i sh =>
      x <- read_u8 (st_key s) (st_k s) i ;;
      Ok (set_reg r (add32 (get_reg r s) (shl32 x sh)) s)
  | FinalMix => Ok (set_regs s (jhash_final (regs s)))
  | Break => Ok s
  end.

Fixpoint exec_stmts (ss : list stmt) (s : state) : result state :=
  match ss with
  | [] => Ok s
  | st :: rest => s' <- exec_stmt st s ;; exec_stmts rest s'
  end.

Definition jhash_switch (s : state) : result state :=
  exec_stmts (switch_path (st_length s)) s.

(** ** [jhash] *)

(** The whole body of [jhash] up to the [return]: the final state. *)
Definition jhash_run (cpu : byte_order) (key : list byte) (length initval : Z)
  : result state :=
  s <- jhash_loop cpu (Z.to_nat length) (jhash_init key length initval) ;;
  jhash_switch s.

(** [u32 jhash(const void *key, u32 length, u32 initval)] *)
Definition jhash (cpu : byte_order) (key : list byte) (length initval : Z)
  : result Z :=
  s <- jhash_run cpu key length initval ;;
  Ok (st_c s).

(** The hash of a whole byte string, as the debug [main] calls it:
    [jhash(argv[i], strlen(argv[i]), hash)]. *)
Definition hash (cpu : byte_order) (key : list byte) (initval : Z) : result Z :=
  jhash cpu key (Z.of_nat (List.length key)) initval.

(** ** The hash-table macros *)

(** [#define jhash_size(n) ((u32)1<<(n))] *)
Definition jhash_size (n : Z) : Z := shl32 1 n.

(** [#define jhash_mask(n) (jhash_size(n)-1)] *)
Definition jhash_mask (n : Z) : Z := sub32 (jhash_size n) 1.

(** ** The debug [main] *)

(** [strlen(p)] on the buffer [p] points to: the offset of the first NUL
    byte; a buffer without one is read past its end. *)
Fixpoint strlen (p : list byte) : result nat :=
  match p with
  | [] => OutOfBounds
  | x :: rest =>
      if Byte.eqb x x00 then Ok O else n <- strlen rest ;; Ok (S n)
  end.

(** [hash = jhash(argv[i], strlen(argv[i]), hash);] for the arguments
    still to come; [strlen]'s result is converted to [u32]. *)
Fixpoint main_loop (cpu : byte_order) (args : list (list byte)) (hash : Z)
  : result Z :=
  match args with
  | [] => Ok hash
  | arg :: rest =>
      n <- strlen arg ;;
      h <- jhash cpu arg (wrap32 (Z.of_nat n)) hash ;;
      main_loop cpu rest h
  end.

(** [main]: [hash = 0], the loop from [i = 1] (so [argv[0]] is skipped),
    and the value that [printf("%x\n", hash)] prints. *)
Definition main (cpu : byte_order) (argv : list (list byte)) : result Z :=
  main_loop cpu (tl argv) 0.

(** ** The description's wording, as definitions to compare with

    Everything above is read off the C source.  The definitions of this
    part follow the prose description instead; the theorems relate the
    two. *)

Definition u32_ok (x : Z) : Prop := 0 <= x < 2 ^ 32.

Definition regs_ok (t : Z * Z * Z) : Prop :=
  let '(a, b, c) := t in u32_ok a /\ u32_ok b /\ u32_ok c.

(** "cycling through a, b, c": the next round acts on the registers
    renamed one place on. *)
Definition cycle (t : Z * Z * Z) : Z * Z * Z :=
  let '(x, y, z) := t in (y, z, x).

(** One round of the bulk mix: "subtract, rotate-XOR, add". *)
Definition mix_round (r : Z) (t : Z * Z * Z) : Z * Z * Z :=
  let '(x, y, z) := t in
  let x := sub32 x z in
  let x := xor32 x (rol32 z r) in
  let z := add32 z y in
  (x, y, z).

Definition mix_rotations : list Z := [4; 6; 8; 16; 19; 4].

Definition mix_rounds (rs : list Z) (t : Z * Z * Z) : Z * Z * Z :=
  fold_left (fun t r => cycle (mix_round r t)) rs t.

(** The round undone, and the rounds undone last to first. *)
Definition mix_round_inv (r : Z) (t : Z * Z * Z) : Z * Z * Z :=
  let '(x, y, z) := t in
  let z := sub32 z y in
  let x := xor32 x (rol32 z r) in
  let x := add32 x z in
  (x, y, z).

Definition mix_rounds_inv (rs : list Z) (t : Z * Z * Z) : Z * Z * Z :=
  fold_right (fun r t => mix_round_inv r (cycle (cycle t))) t rs.

Definition jhash_mix_inv (t : Z * Z * Z) : Z * Z * Z :=
  mix_rounds_inv mix_rotations t.

(** One step of the final mix: the last register of the current naming
    is XORed with the middle one, then the middle one, rotated, is
    subtracted from it. *)
Definition final_step (r : Z) (t : Z * Z * Z) : Z * Z * Z :=
  let '(x, y, z) := t in
  let z := xor32 z y in
  let z := sub32 z (rol32 y r) in
  (x, y, z).

Definition final_rotations : list Z := [14; 11; 25; 16; 4; 14; 24].

Definition final_steps (rs : list Z) (t : Z * Z * Z) : Z * Z * Z :=
  fold_left (fun t r => cycle (final_step r t)) rs t.

(** The byte-to-word/shift mapping of the tail: byte [i] goes to word
    [i / 4], shifted left by [8 * (i mod 4)] bits. *)
Definition tail_reg (i : nat) : reg :=
  match (i / 4)%nat with
  | O => RegA
  | S O => RegB
  | _ => RegC
  end.

Definition tail_shift (i : nat) : Z := 8 * Z.of_nat (i mod 4).

(** The additions of a remainder of [L] bytes, in the order the
    fall-through runs them: positions [L-1] down to [0]. *)
Definition absorb_stmts (L : nat) : list stmt :=
  map (fun i => AddByte (tail_reg i) i (tail_shift i)) (rev (seq 0 L)).

(** The value of a byte string read as a little-endian number. *)
Fixpoint le_value (bs : list byte) : Z :=
  match bs with
  | [] => 0
  | x :: rest => u8_to_u32 x + 2 ^ 8 * le_value rest
  end.

(** Absorbing the bytes [bs] (at most 12 of them): the first four go to
    [a], the next four to [b], the last four to [c]. *)
Definition absorb_spec (bs : list byte) (t : Z * Z * Z) : Z * Z * Z :=
  let '(a, b, c) := t in
  (add32 a (le_value (firstn 4 bs)),
   add32 b (le_value (firstn 4 (skipn 4 bs))),
   add32 c (le_value (firstn 4 (skipn 8 bs)))).

(** The bytes the cursor of [s] points to. *)
Definition bytes_at (s : state) : list byte := skipn (st_k s) (st_key s).

(** What is left for the switch when [length] bytes are hashed. *)
Definition remainder (length : Z) : Z :=
  if length =? 0 then 0 else (length - 1) mod 12 + 1.

(** The state after one 12-byte block: registers [t], the cursor 12
    bytes further, 12 bytes fewer to go. *)
Definition next_block (s : state) (t : Z * Z * Z) : state :=
  let '(a, b, c) := t in
  mkState (st_key s) (st_k s + 12) (st_length s - 12) a b c.

(** The hash as a function of the byte string alone, following the
    description's steps: while more than 12 bytes remain, mix in a block
    of 12; then absorb what is left and, unless nothing is left, apply the
    final mix; the result is [c]. *)
Section Blocks.
Variable f : list byte -> Z * Z * Z -> Z * Z * Z.

(** [f] folded over the 12-byte blocks of [bs] for as long as more than
    12 bytes remain; the registers and the bytes left over. *)
Fixpoint fold_blocks (bs : list byte) (t : Z * Z * Z) {struct bs}
  : Z * Z * Z * list byte :=
  match bs with
  | b0 :: b1 :: b2 :: b3 :: b4 :: b5 :: b6 :: b7 :: b8 :: b9 :: b10 :: b11
       :: ((_ :: _) as rest) =>
      fold_blocks rest
        (f [b0; b1; b2; b3; b4; b5; b6; b7; b8; b9; b10; b11] t)
  | _ => (t, bs)
  end.
End Blocks.

(** One block: three words added into [a], [b], [c], then the mix. *)
Definition mix_block (cpu : byte_order) (blk : list byte) (t : Z * Z * Z)
  : Z * Z * Z :=
  match blk, t with
  | [b0; b1; b2; b3; b4; b5; b6; b7; b8; b9; b10; b11], (a, b, c) =>
      jhash_mix (add32 a (word_of_bytes cpu b0 b1 b2 b3),
                 add32 b (word_of_bytes cpu b4 b5 b6 b7),
                 add32 c (word_of_bytes cpu b8 b9 b10 b11))
  | _, _ => t
  end.

Definition mix_blocks (cpu : byte_order) : list byte -> Z * Z * Z
                                           -> Z * Z * Z * list byte :=
  fold_blocks (mix_block cpu).

Definition third (t : Z * Z * Z) : Z := snd t.

Definition jhash_spec (cpu : byte_order) (bs : list byte) (initval : Z) : Z :=
  let v := wrap32 (0xdeadbeef + Z.of_nat (length bs) + initval) in
  let '(t, rem) := mix_blocks cpu bs (v, v, v) in
  match rem with
  | [] => third t
  | _ :: _ => third (jhash_final (absorb_spec rem t))
  end.

(** One step of the final mix undone. *)
Definition final_step_inv (r : Z) (t : Z * Z * Z) : Z * Z * Z :=
  let '(x, y, z) := t in
  let z := add32 z (rol32 y r) in
  let z := xor32 z y in
  (x, y, z).

(** The final mix undone, last step first. *)
Definition jhash_final_inv (t : Z * Z * Z) : Z * Z * Z :=
  fold_right (fun r u => final_step_inv r (cycle (cycle u))) (cycle t)
             final_rotations.

(** A C string: the bytes and the terminating NUL. *)
Definition c_string (s : list byte) : list byte := s ++ [x00].

(** A key of at most 12 bytes padded with zero bytes to a full block. *)
Definition pad_block (bs : list byte) : list byte :=
  bs ++ repeat x00 (12 - length bs).

(** The three words of a 12-byte block as the CPU reads them. *)
Definition block_words (cpu : byte_order) (blk : list byte) : Z * Z * Z :=
  match blk with
  | [b0; b1; b2; b3; b4; b5; b6; b7; b8; b9; b10; b11] =>
      (word_of_bytes cpu b0 b1 b2 b3, word_of_bytes cpu b4 b5 b6 b7,
       word_of_bytes cpu b8 b9 b10 b11)
  | _ => (0, 0, 0)
  end.

Definition add_words (t w : Z * Z * Z) : Z * Z * Z :=
  let '(a, b, c) := t in
  let '(w0, w1, w2) := w in
  (add32 a w0, add32 b w1, add32 c w2).

(** ** 32-bit arithmetic *)

#[global] Arguments wrap32 : simpl never.
#[global] Arguments add32 : simpl never.
#[global] Arguments sub32 : simpl never.
#[global] Arguments shl32 : simpl never.
#[global] Arguments shr32 : simpl never.
#[global] Arguments xor32 : simpl never.
#[global] Arguments rol32 : simpl never.
#[global] Arguments u8_to_u32 : simpl never.

Lemma wrap32_ok (x : Z) : u32_ok (wrap32 x).
Proof. unfold u32_ok, wrap32. apply Z.mod_pos_bound. lia. Qed.

Lemma wrap32_small (x : Z) : u32_ok x -> wrap32 x = x.
Proof. unfold u32_ok, wrap32. intros H. apply Z.mod_small. exact H. Qed.

Lemma add32_ok (x y : Z) : u32_ok (add32 x y).
Proof. apply wrap32_ok. Qed.

Lemma sub32_ok (x y : Z) : u32_ok (sub32 x y).
Proof. apply wrap32_ok. Qed.

Lemma add32_wrap_l (x y : Z) : add32 (wrap32 x) y = wrap32 (x + y).
Proof. unfold add32, wrap32. apply Zplus_mod_idemp_l. Qed.

Lemma add32_sub32 (x y : Z) : u32_ok x -> add32 (sub32 x y) y = x.
Proof.
  intros H. unfold sub32. rewrite add32_wrap_l.
  replace (x - y + y) with x by ring. now apply wrap32_small.
Qed.

Lemma sub32_add32 (x y : Z) : u32_ok x -> sub32 (add32 x y) y = x.
Proof.
  intros H. unfold sub32, add32, wrap32. rewrite Zminus_mod_idemp_l.
  replace (x + y - y) with x by ring. now apply Z.mod_small.
Qed.

Lemma xor32_xor32 (x y : Z) : xor32 (xor32 x y) y = x.
Proof.
  unfold xor32. now rewrite Z.lxor_assoc, Z.lxor_nilpotent, Z.lxor_0_r.
Qed.

Lemma lor_ok (x y : Z) : u32_ok x -> u32_ok y -> u32_ok (Z.lor x y).
Proof.
  unfold u32_ok. intros [Hx Hx'] [Hy Hy']. split.
  - now apply Z.lor_nonneg.
  - destruct (Z.eq_dec (Z.lor x y) 0) as [E | E]; [rewrite E; lia |].
    assert (0 < Z.lor x y) by (pose proof (proj2 (Z.lor_nonneg x y) (conj Hx Hy)); lia).
    apply Z.log2_lt_pow2; [assumption |].
    pose proof (Z.log2_lor x y Hx Hy) as Hl.
    assert (Z.log2 x < 32).
    { destruct (Z.eq_dec x 0) as [-> | ?]; [cbn; lia | apply Z.log2_lt_pow2; lia]. }
    assert (Z.log2 y < 32).
    { destruct (Z.eq_dec y 0) as [-> | ?]; [cbn; lia | apply Z.log2_lt_pow2; lia]. }
    lia.
Qed.

Lemma xor32_ok (x y : Z) : u32_ok x -> u32_ok y -> u32_ok (xor32 x y).
Proof.
  unfold u32_ok, xor32. intros [Hx Hx'] [Hy Hy']. split.
  - now apply Z.lxor_nonneg.
  - destruct (Z.eq_dec (Z.lxor x y) 0) as [E | E]; [rewrite E; lia |].
    assert (0 <= Z.lxor x y) by now apply Z.lxor_nonneg.
    apply Z.log2_lt_pow2; [lia |].
    pose proof (Z.log2_lxor x y Hx Hy) as Hl.
    assert (Z.log2 x < 32).
    { destruct (Z.eq_dec x 0) as [-> | ?]; [cbn; lia | apply Z.log2_lt_pow2; lia]. }
    assert (Z.log2 y < 32).
    { destruct (Z.eq_dec y 0) as [-> | ?]; [cbn; lia | apply Z.log2_lt_pow2; lia]. }
    lia.
Qed.

Lemma shr32_ok (x n : Z) : 0 <= n -> u32_ok x -> u32_ok (shr32 x n).
Proof.
  unfold u32_ok, shr32. intros Hn [Hx Hx']. split.
  - now apply Z.shiftr_nonneg.
  - rewrite Z.shiftr_div_pow2 by assumption.
    assert (0 < 2 ^ n) by (apply Z.pow_pos_nonneg; lia).
    assert (x / 2 ^ n <= x) by (apply Z.div_le_upper_bound; nia).
    lia.
Qed.

Lemma rol32_ok (word shift : Z) : u32_ok word -> u32_ok (rol32 word shift).
Proof.
  intros H. unfold rol32. apply lor_ok.
  - apply wrap32_ok.
  - apply shr32_ok; [| exact H].
    apply Z.land_nonneg. right. lia.
Qed.

Lemma u8_to_u32_range (x : byte) : 0 <= u8_to_u32 x < 2 ^ 8.
Proof.
  unfold u8_to_u32. pose proof (Byte.to_N_bounded x) as H.
  change (2 ^ 8) with 256. lia.
Qed.

(** A byte below a shifted value: the OR is a sum. *)
Lemma lor_shiftl_add (x y n : Z) :
  0 <= n -> 0 <= x < 2 ^ n -> Z.lor x (Z.shiftl y n) = x + y * 2 ^ n.
Proof.
  intros Hn Hx.
  assert (E : Z.land x (Z.shiftl y n) = 0).
  { apply Z.bits_inj'. intros i Hi.
    rewrite Z.land_spec, Z.bits_0.
    destruct (Z.lt_ge_cases i n) as [Hlt | Hge].
    - rewrite Z.shiftl_spec_low by assumption. apply andb_false_r.
    - assert (Z.testbit x i = false) as ->; [| reflexivity].
      destruct (Z.eq_dec x 0) as [-> | Hx0]; [apply Z.bits_0 |].
      apply Z.bits_above_log2; [lia |].
      assert (Z.log2 x < n) by (apply Z.log2_lt_pow2; lia). lia. }
  rewrite <- Z.lxor_lor by exact E.
  rewrite <- Z.add_nocarry_lxor by exact E.
  now rewrite Z.shiftl_mul_pow2.
Qed.

Lemma word_of_bytes_little (b0 b1 b2 b3 : byte) :
  word_of_bytes LittleEndian b0 b1 b2 b3
  = u8_to_u32 b0 + 2 ^ 8 * u8_to_u32 b1 + 2 ^ 16 * u8_to_u32 b2
    + 2 ^ 24 * u8_to_u32 b3.
Proof.
  pose proof (u8_to_u32_range b0). pose proof (u8_to_u32_range b1).
  pose proof (u8_to_u32_range b2). pose proof (u8_to_u32_range b3).
  unfold word_of_bytes.
  rewrite (lor_shiftl_add (u8_to_u32 b0)) by lia.
  rewrite (lor_shiftl_add (u8_to_u32 b0 + _)) by lia.
  rewrite lor_shiftl_add by lia.
  ring.
Qed.

Lemma word_of_bytes_big (b0 b1 b2 b3 : byte) :
  word_of_bytes BigEndian b0 b1 b2 b3
  = u8_to_u32 b3 + 2 ^ 8 * u8_to_u32 b2 + 2 ^ 16 * u8_to_u32 b1
    + 2 ^ 24 * u8_to_u32 b0.
Proof.
  exact (word_of_bytes_little b3 b2 b1 b0).
Qed.

Lemma word_of_bytes_ok (cpu : byte_order) (b0 b1 b2 b3 : byte) :
  u32_ok (word_of_bytes cpu b0 b1 b2 b3).
Proof.
  pose proof (u8_to_u32_range b0). pose proof (u8_to_u32_range b1).
  pose proof (u8_to_u32_range b2). pose proof (u8_to_u32_range b3).
  destruct cpu; [rewrite word_of_bytes_little | rewrite word_of_bytes_big];
    unfold u32_ok; lia.
Qed.

(** ** The mixing macros as rounds *)

Lemma cycle_cycle_cycle (t : Z * Z * Z) : cycle (cycle (cycle t)) = t.
Proof. destruct t as [[x y] z]. reflexivity. Qed.

Lemma cycle_ok (t : Z * Z * Z) : regs_ok t -> regs_ok (cycle t).
Proof. destruct t as [[x y] z]. unfold regs_ok, cycle. tauto. Qed.

Lemma jhash_mix_rounds (t : Z * Z * Z) :
  jhash_mix t = mix_rounds mix_rotations t.
Proof. destruct t as [[a b] c]. reflexivity. Qed.

Lemma jhash_final_steps (t : Z * Z * Z) :
  jhash_final t = cycle (cycle (final_steps final_rotations t)).
Proof. destruct t as [[a b] c]. reflexivity. Qed.

Lemma mix_round_ok (r : Z) (t : Z * Z * Z) :
  regs_ok t -> regs_ok (mix_round r t).
Proof.
  destruct t as [[x y] z]. unfold regs_ok, mix_round. intros (Hx & Hy & Hz).
  repeat split; try apply Hy; try apply add32_ok.
  - apply xor32_ok; [apply sub32_ok | now apply rol32_ok].
  - apply xor32_ok; [apply sub32_ok | now apply rol32_ok].
Qed.

Lemma mix_round_inv_ok (r : Z) (t : Z * Z * Z) :
  regs_ok t -> regs_ok (mix_round_inv r t).
Proof.
  destruct t as [[x y] z]. unfold regs_ok, mix_round_inv.
  intros (Hx & Hy & Hz).
  repeat split; try apply Hy; try apply add32_ok; apply sub32_ok.
Qed.

Lemma mix_round_inv_l (r : Z) (t : Z * Z * Z) :
  regs_ok t -> mix_round_inv r (mix_round r t) = t.
Proof.
  destruct t as [[x y] z]. unfold regs_ok, mix_round, mix_round_inv.
  intros (Hx & Hy & Hz).
  rewrite (sub32_add32 z y Hz), xor32_xor32, (add32_sub32 x z Hx).
  reflexivity.
Qed.

Lemma mix_round_inv_r (r : Z) (t : Z * Z * Z) :
  regs_ok t -> mix_round r (mix_round_inv r t) = t.
Proof.
  destruct t as [[x y] z]. unfold regs_ok, mix_round, mix_round_inv.
  intros (Hx & Hy & Hz).
  assert (Hq : u32_ok (xor32 x (rol32 (sub32 z y) r))).
  { apply xor32_ok; [exact Hx | apply rol32_ok, sub32_ok]. }
  rewrite (sub32_add32 _ (sub32 z y) Hq), xor32_xor32, (add32_sub32 z y Hz).
  reflexivity.
Qed.

Lemma mix_rounds_ok (rs : list Z) (t : Z * Z * Z) :
  regs_ok t -> regs_ok (mix_rounds rs t).
Proof.
  unfold mix_rounds. revert t.
  induction rs as [| r rs IH]; intros t Ht; cbn [fold_left].
  - exact Ht.
  - apply IH, cycle_ok, mix_round_ok, Ht.
Qed.

Lemma mix_rounds_inv_ok (rs : list Z) (t : Z * Z * Z) :
  regs_ok t -> regs_ok (mix_rounds_inv rs t).
Proof.
  unfold mix_rounds_inv. intros Ht.
  induction rs as [| r rs IH]; cbn [fold_right].
  - exact Ht.
  - apply mix_round_inv_ok, cycle_ok, cycle_ok, IH.
Qed.

Lemma mix_rounds_inv_l (rs : list Z) (t : Z * Z * Z) :
  regs_ok t -> mix_rounds_inv rs (mix_rounds rs t) = t.
Proof.
  unfold mix_rounds, mix_rounds_inv. revert t.
  induction rs as [| r rs IH]; intros t Ht; cbn [fold_left fold_right].
  - reflexivity.
  - rewrite IH by (apply cycle_ok, mix_round_ok, Ht).
    rewrite cycle_cycle_cycle. apply mix_round_inv_l, Ht.
Qed.

Lemma mix_rounds_inv_r (rs : list Z) (t : Z * Z * Z) :
  regs_ok t -> mix_rounds rs (mix_rounds_inv rs t) = t.
Proof.
  intros Ht.
  induction rs as [| r rs IH].
  - reflexivity.
  - unfold mix_rounds, mix_rounds_inv in *. cbn [fold_left fold_right].
    rewrite mix_round_inv_r
      by (apply cycle_ok, cycle_ok; now apply (mix_rounds_inv_ok rs)).
    rewrite cycle_cycle_cycle. exact IH.
Qed.

Lemma jhash_mix_ok (t : Z * Z * Z) : regs_ok t -> regs_ok (jhash_mix t).
Proof. rewrite jhash_mix_rounds. apply mix_rounds_ok. Qed.

Lemma final_step_ok (r : Z) (t : Z * Z * Z) :
  regs_ok t -> regs_ok (final_step r t).
Proof.
  destruct t as [[x y] z]. unfold regs_ok, final_step. intros (Hx & Hy & Hz).
  repeat split; try apply Hx; try apply Hy; apply sub32_ok.
Qed.

Lemma jhash_final_ok (t : Z * Z * Z) : regs_ok t -> regs_ok (jhash_final t).
Proof.
  rewrite jhash_final_steps. intros Ht. apply cycle_ok, cycle_ok.
  unfold final_steps. revert t Ht.
  induction final_rotations as [| r rs IH]; intros t Ht; cbn [fold_left].
  - exact Ht.
  - apply IH, cycle_ok, final_step_ok, Ht.
Qed.

(** C9: [__jhash_mix] is reversible: it maps triples of 32-bit values
    to triples of 32-bit values, and every such triple is the image of
    exactly one. *)
Theorem jhash_mix_bijective (t : Z * Z * Z) :
  regs_ok t ->
  regs_ok (jhash_mix t) /\
  exists u, (regs_ok u /\ jhash_mix u = t) /\
            forall v, regs_ok v /\ jhash_mix v = t -> v = u.
Proof.
  intros Ht. split; [now apply jhash_mix_ok |].
  exists (jhash_mix_inv t). split; [split |].
  - now apply mix_rounds_inv_ok.
  - rewrite jhash_mix_rounds. now apply mix_rounds_inv_r.
  - intros v [Hv E]. subst t.
    rewrite jhash_mix_rounds. unfold jhash_mix_inv.
    symmetry. now apply mix_rounds_inv_l.
Qed.

Lemma jhash_mix_bijective_witness :
  regs_ok (jhash_mix (1, 2, 3)) /\
  exists u, (regs_ok u /\ jhash_mix u = (1, 2, 3)) /\
            forall v, regs_ok v /\ jhash_mix v = (1, 2, 3) -> v = u.
Proof.
  apply (jhash_mix_bijective (1, 2, 3)).
  unfold regs_ok, u32_ok. lia.
Defined.

(** ** Reading relative to the cursor *)

Lemma read_u8_at (mem : list byte) (k i : nat) :
  read_u8 mem k i
  = match nth_error (skipn k mem) i with
    | Some x => Ok (u8_to_u32 x)
    | None => OutOfBounds
    end.
Proof. unfold read_u8. now rewrite nth_error_skipn. Qed.

Lemma get_unaligned_cpu32_at (cpu : byte_order) (mem : list byte) (k i : nat) :
  get_unaligned_cpu32 cpu mem (k + i)
  = get_unaligned_cpu32 cpu (skipn k mem) i.
Proof.
  unfold get_unaligned_cpu32.
  rewrite !nth_error_skipn, !Nat.add_assoc. reflexivity.
Qed.

Lemma get_unaligned_cpu32_at0 (cpu : byte_order) (mem : list byte) (k : nat) :
  get_unaligned_cpu32 cpu mem k = get_unaligned_cpu32 cpu (skipn k mem) 0.
Proof.
  rewrite <- get_unaligned_cpu32_at. now rewrite Nat.add_0_r.
Qed.

Lemma sub32_12 (n : Z) : 12 < n < 2 ^ 32 -> sub32 n 12 = n - 12.
Proof. intros H. apply wrap32_small. unfold u32_ok. lia. Qed.

Lemma loop_body_block (cpu : byte_order) (s : state)
      (b0 b1 b2 b3 b4 b5 b6 b7 b8 b9 b10 b11 : byte) (rest : list byte) :
  12 < st_length s < 2 ^ 32 ->
  bytes_at s = b0 :: b1 :: b2 :: b3 :: b4 :: b5 :: b6 :: b7
                  :: b8 :: b9 :: b10 :: b11 :: rest ->
  loop_body cpu s
  = Ok (next_block s
          (jhash_mix (add32 (st_a s) (word_of_bytes cpu b0 b1 b2 b3),
                      add32 (st_b s) (word_of_bytes cpu b4 b5 b6 b7),
                      add32 (st_c s) (word_of_bytes cpu b8 b9 b10 b11)))).
Proof.
  unfold bytes_at, loop_body. intros Hlen E.
  rewrite get_unaligned_cpu32_at0, !get_unaligned_cpu32_at, E.
  cbn [get_unaligned_cpu32 nth_error Nat.add bind].
  rewrite (sub32_12 _ Hlen). unfold next_block.
  destruct (jhash_mix _) as [[a b] c]. reflexivity.
Qed.

Lemma st_k_next_block (s : state) (t : Z * Z * Z) :
  st_k (next_block s t) = (st_k s + 12)%nat.
Proof. destruct t as [[a b] c]. reflexivity. Qed.

Lemma st_key_next_block (s : state) (t : Z * Z * Z) :
  st_key (next_block s t) = st_key s.
Proof. destruct t as [[a b] c]. reflexivity. Qed.

Lemma st_length_next_block (s : state) (t : Z * Z * Z) :
  st_length (next_block s t) = st_length s - 12.
Proof. destruct t as [[a b] c]. reflexivity. Qed.

Lemma regs_next_block (s : state) (t : Z * Z * Z) :
  regs (next_block s t) = t.
Proof. destruct t as [[a b] c]. reflexivity. Qed.

Lemma bytes_at_next_block (s : state) (t : Z * Z * Z) (blk rest : list byte) :
  length blk = 12%nat ->
  bytes_at s = blk ++ rest ->
  bytes_at (next_block s t) = rest.
Proof.
  unfold bytes_at, next_block. destruct t as [[a b] c]. cbn [st_k st_key].
  intros Hl E.
  rewrite Nat.add_comm, <- skipn_skipn, E, <- Hl.
  now rewrite skipn_app, skipn_all, Nat.sub_diag.
Qed.

(** The words of that block are 0x04030201, 0x08070605 and 0x0c0b0a09 on
    a little-endian CPU, and the bytes the other way round on a
    big-endian one. *)
Example word_of_bytes_by_cpu :
  word_of_bytes LittleEndian x01 x02 x03 x04 = 0x04030201 /\
  word_of_bytes BigEndian x01 x02 x03 x04 = 0x01020304.
Proof. split; reflexivity. Qed.

(** ** The switch *)

Lemma switch_path_shape (L : nat) :
  (L <= 12)%nat ->
  switch_path (Z.of_nat L)
  = absorb_stmts L ++ (if (L =? 0)%nat then [] else [FinalMix]).
Proof.
  intros H.
  do 13 (destruct L as [| L]; [reflexivity |]).
  lia.
Qed.

Lemma switch_path_outside (n : Z) : n < 0 \/ 12 < n -> switch_path n = [].
Proof.
  intros H. unfold switch_path, switch_body.
  cbn [switch_jump label_is].
  repeat match goal with
         | |- context [n =? ?m] =>
             destruct (Z.eqb_spec n m) as [E | _]; [lia |]
         end.
  reflexivity.
Qed.

Lemma exec_stmts_app (l1 l2 : list stmt) (s : state) :
  exec_stmts (l1 ++ l2) s = (s' <- exec_stmts l1 s ;; exec_stmts l2 s').
Proof.
  revert s. induction l1 as [| st l1 IH]; intros s; cbn [app exec_stmts bind].
  - reflexivity.
  - destruct (exec_stmt st s) as [s1 | |]; cbn [bind]; [apply IH | reflexivity ..].
Qed.

Lemma wrap32_add_l (x y : Z) : wrap32 (wrap32 x + y) = wrap32 (x + y).
Proof. unfold wrap32. apply Zplus_mod_idemp_l. Qed.

Ltac take_bytes l H :=
  destruct l as [| ? l]; [cbn [length] in H; lia |].

Ltac eval_tail_mapping :=
  repeat match goal with
         | |- context [tail_shift ?i] =>
             let v := eval vm_compute in (tail_shift i) in
             change (tail_shift i) with v
         | |- context [tail_reg ?i] =>
             let v := eval vm_compute in (tail_reg i) in
             change (tail_reg i) with v
         end.

Lemma shl32_u8 (x : byte) (sh : Z) :
  0 <= sh <= 24 -> shl32 (u8_to_u32 x) sh = u8_to_u32 x * 2 ^ sh.
Proof.
  intros Hsh. unfold shl32. rewrite Z.shiftl_mul_pow2 by lia.
  apply wrap32_small. unfold u32_ok.
  pose proof (u8_to_u32_range x) as Hx.
  assert (0 < 2 ^ sh) by (apply Z.pow_pos_nonneg; lia).
  assert (2 ^ sh <= 2 ^ 24) by (apply Z.pow_le_mono_r; lia).
  split; [nia |].
  apply Z.le_lt_trans with (255 * 2 ^ 24); [nia | lia].
Qed.

Lemma add32_add32 (x y z : Z) : add32 (add32 x y) z = add32 x (y + z).
Proof.
  unfold add32. rewrite wrap32_add_l. f_equal. ring.
Qed.

Ltac norm32 :=
  rewrite ?shl32_u8 by lia;
  repeat rewrite add32_add32;
  unfold add32; f_equal; ring.

Lemma exec_absorb_stmts (L : nat) (s : state) :
  regs_ok (regs s) ->
  (L <= 12)%nat ->
  (L <= length (bytes_at s))%nat ->
  exec_stmts (absorb_stmts L) s
  = Ok (set_regs s (absorb_spec (firstn L (bytes_at s)) (regs s))).
Proof.
  intros Hok H12 Hl. destruct s as [key k len a b c].
  unfold bytes_at, regs, regs_ok in *. cbn [st_k st_key st_a st_b st_c] in *.
  destruct Hok as (Ha & Hb & Hc).
  remember (skipn k key) as l eqn:El.
  assert (Hread : forall i,
             read_u8 key k i
             = match nth_error l i with
               | Some x => Ok (u8_to_u32 x)
               | None => OutOfBounds
               end) by (intros i; subst l; apply read_u8_at).
  clear El.
  do 13 (try destruct L as [| L]); try (exfalso; lia).
  all: repeat take_bytes l Hl.
  all: unfold absorb_stmts; cbn [seq rev app map]; eval_tail_mapping.
  all: cbn [exec_stmts exec_stmt st_key st_k st_length st_a st_b st_c
            get_reg set_reg];
       repeat (rewrite Hread;
               cbn [nth_error bind exec_stmts exec_stmt st_key st_k st_length
                    st_a st_b st_c get_reg set_reg]).
  all: cbn [firstn skipn absorb_spec set_regs le_value
            st_key st_k st_length st_a st_b st_c].
  all: f_equal; f_equal.
  all: first [ symmetry; unfold add32; rewrite Z.add_0_r;
               apply wrap32_small; assumption
             | norm32 ].
Qed.

Lemma in_absorb_stmts (L : nat) (r : reg) (i : nat) (sh : Z) :
  In (AddByte r i sh) (absorb_stmts L)
  <-> (i < L)%nat /\ r = tail_reg i /\ sh = tail_shift i.
Proof.
  unfold absorb_stmts. rewrite in_map_iff. split.
  - intros (j & E & Hj). rewrite <- in_rev, in_seq in Hj.
    injection E as <- -> <-. repeat split. lia.
  - intros (Hi & -> & ->). exists i. split; [reflexivity |].
    rewrite <- in_rev, in_seq. lia.
Qed.

Lemma in_switch_path_add (L : nat) (r : reg) (i : nat) (sh : Z) :
  (L <= 12)%nat ->
  In (AddByte r i sh) (switch_path (Z.of_nat L))
  <-> (i < L)%nat /\ r = tail_reg i /\ sh = tail_shift i.
Proof.
  intros H. rewrite (switch_path_shape L H), in_app_iff, in_absorb_stmts.
  split; [| now left].
  intros [Hin | Hin]; [exact Hin |].
  destruct (L =? 0)%nat; cbn [In] in Hin; [contradiction |].
  destruct Hin as [E | []]. discriminate E.
Qed.

Lemma jhash_init_ok (key : list byte) (length initval : Z) :
  regs_ok (regs (jhash_init key length initval)).
Proof. unfold regs_ok, regs, jhash_init. cbn. repeat split; apply add32_ok. Qed.

(** What that absorption adds, spelled out on five bytes: the first four
    into [a], the fifth into [b], nothing into [c]. *)
Example absorb_spec_five (a b c : Z) :
  absorb_spec [x61; x62; x63; x64; x65] (a, b, c)
  = (add32 a 0x64636261, add32 b 0x65, add32 c 0).
Proof. reflexivity. Qed.

(** ** The bulk loop *)

Lemma jhash_loop_eq (cpu : byte_order) (fuel : nat) (s : state) :
  jhash_loop cpu fuel s
  = if loop_cond s then
      match fuel with
      | O => OutOfFuel
      | S fuel' => s' <- loop_body cpu s ;; jhash_loop cpu fuel' s'
      end
    else Ok s.
Proof. destruct fuel; reflexivity. Qed.

Lemma remainder_small (n : Z) : 0 <= n <= 12 -> remainder n = n.
Proof.
  intros H. unfold remainder.
  destruct (Z.eqb_spec n 0) as [-> | Hn]; [reflexivity |].
  rewrite Z.mod_small by lia. lia.
Qed.

Lemma remainder_step (n : Z) : 12 < n -> remainder (n - 12) = remainder n.
Proof.
  intros H. unfold remainder.
  destruct (Z.eqb_spec (n - 12) 0) as [E | _]; [lia |].
  destruct (Z.eqb_spec n 0) as [E | _]; [lia |].
  replace (n - 12 - 1) with (n - 1 + (-1) * 12) by ring.
  now rewrite Z.mod_add by lia.
Qed.

Lemma remainder_range (n : Z) :
  0 <= n -> 0 <= remainder n <= 12 /\ (remainder n = 0 <-> n = 0).
Proof.
  intros H. unfold remainder.
  destruct (Z.eqb_spec n 0) as [-> | Hn]; [lia |].
  pose proof (Z.mod_pos_bound (n - 1) 12). lia.
Qed.

Lemma fold_blocks_short (f : list byte -> Z * Z * Z -> Z * Z * Z)
      (bs : list byte) (t : Z * Z * Z) :
  (length bs <= 12)%nat -> fold_blocks f bs t = (t, bs).
Proof.
  intros H.
  do 13 (destruct bs as [| ? bs]; [reflexivity |]).
  cbn [length] in H. lia.
Qed.

Lemma fold_blocks_block (f : list byte -> Z * Z * Z -> Z * Z * Z)
      (b0 b1 b2 b3 b4 b5 b6 b7 b8 b9 b10 b11 b12 : byte) (rest : list byte)
      (t : Z * Z * Z) :
  fold_blocks f
    (b0 :: b1 :: b2 :: b3 :: b4 :: b5 :: b6 :: b7 :: b8 :: b9 :: b10 :: b11
        :: b12 :: rest) t
  = fold_blocks f (b12 :: rest)
      (f [b0; b1; b2; b3; b4; b5; b6; b7; b8; b9; b10; b11] t).
Proof. reflexivity. Qed.

Lemma mix_block_eq (cpu : byte_order)
      (b0 b1 b2 b3 b4 b5 b6 b7 b8 b9 b10 b11 : byte) (a b c : Z) :
  mix_block cpu [b0; b1; b2; b3; b4; b5; b6; b7; b8; b9; b10; b11] (a, b, c)
  = jhash_mix (add32 a (word_of_bytes cpu b0 b1 b2 b3),
               add32 b (word_of_bytes cpu b4 b5 b6 b7),
               add32 c (word_of_bytes cpu b8 b9 b10 b11)).
Proof. reflexivity. Qed.

Lemma jhash_loop_spec (cpu : byte_order) (fuel : nat) (s : state) :
  0 <= st_length s < 2 ^ 32 ->
  (Z.to_nat (st_length s) <= length (bytes_at s))%nat ->
  st_length s <= Z.of_nat fuel ->
  exists s',
    jhash_loop cpu fuel s = Ok s' /\
    st_key s' = st_key s /\
    st_length s' = remainder (st_length s) /\
    (Z.to_nat (st_length s') <= length (bytes_at s'))%nat /\
    (st_length s <= 12 -> s' = s) /\
    mix_blocks cpu (firstn (Z.to_nat (st_length s)) (bytes_at s)) (regs s)
    = (regs s', firstn (Z.to_nat (st_length s')) (bytes_at s')).
Proof.
  revert s. induction fuel as [| fuel IH]; intros s Hlen Hb Hf;
    rewrite jhash_loop_eq; destruct (loop_cond s) eqn:Hc; unfold loop_cond in Hc.
  - apply Z.ltb_lt in Hc. lia.
  - apply Z.ltb_ge in Hc. exists s.
    rewrite remainder_small by lia. repeat split; try assumption.
    apply fold_blocks_short. rewrite length_firstn. lia.
  - apply Z.ltb_lt in Hc.
    remember (bytes_at s) as l eqn:El.
    assert (H13 : (13 <= length l)%nat) by lia.
    do 13 take_bytes l H13.
    rename l into rest. symmetry in El.
    rewrite (loop_body_block cpu s _ _ _ _ _ _ _ _ _ _ _ _ _ (conj Hc (proj2 Hlen)) El).
    cbn [bind].
    set (t := jhash_mix _).
    assert (Hrest : bytes_at (next_block s t) = b11 :: rest).
    { apply (bytes_at_next_block s t [b; b0; b1; b2; b3; b4; b5; b6; b7; b8; b9; b10]);
        [reflexivity | exact El]. }
    destruct (IH (next_block s t)) as (s' & Hrun & Hkey & Hrem & Hbs & _ & Hmix).
    + rewrite st_length_next_block. lia.
    + rewrite st_length_next_block, Hrest. cbn [length] in Hb |- *. lia.
    + rewrite st_length_next_block. lia.
    + exists s'. rewrite st_length_next_block in *.
      rewrite st_key_next_block in Hkey. rewrite (remainder_step _ Hc) in Hrem.
      split; [exact Hrun |]. split; [exact Hkey |]. split; [exact Hrem |].
      split; [exact Hbs |]. split; [lia |].
      rewrite <- Hmix, Hrest, regs_next_block.
      replace (Z.to_nat (st_length s))
        with (13 + Z.to_nat (st_length s - 13))%nat by lia.
      replace (Z.to_nat (st_length s - 12))
        with (1 + Z.to_nat (st_length s - 13))%nat by lia.
      cbn [firstn Nat.add]. unfold regs, mix_blocks.
      rewrite fold_blocks_block, mix_block_eq. reflexivity.
  - apply Z.ltb_ge in Hc. exists s.
    rewrite remainder_small by lia. repeat split; try assumption.
    apply fold_blocks_short. rewrite length_firstn. lia.
Qed.

(** ** The switch, and the whole function *)

Lemma Ok_inj {A : Type} (x y : A) : Ok x = Ok y -> x = y.
Proof. intros E. now injection E. Qed.

Lemma regs_set_regs (s : state) (t : Z * Z * Z) : regs (set_regs s t) = t.
Proof. destruct t as [[a b] c]. reflexivity. Qed.

Lemma set_regs_set_regs (s : state) (t u : Z * Z * Z) :
  set_regs (set_regs s t) u = set_regs s u.
Proof. destruct t as [[a b] c], u as [[a' b'] c']. reflexivity. Qed.

Lemma st_key_set_regs (s : state) (t : Z * Z * Z) :
  st_key (set_regs s t) = st_key s.
Proof. destruct t as [[a b] c]. reflexivity. Qed.

Lemma st_c_set_regs (s : state) (t : Z * Z * Z) :
  st_c (set_regs s t) = third t.
Proof. destruct t as [[a b] c]. reflexivity. Qed.

Lemma absorb_spec_ok (bs : list byte) (t : Z * Z * Z) :
  regs_ok (absorb_spec bs t).
Proof.
  destruct t as [[a b] c]. unfold absorb_spec, regs_ok.
  split; [| split]; apply add32_ok.
Qed.

Lemma jhash_switch_spec (L : nat) (s : state) :
  (L <= 12)%nat ->
  st_length s = Z.of_nat L ->
  regs_ok (regs s) ->
  (L <= length (bytes_at s))%nat ->
  jhash_switch s
  = Ok (if (L =? 0)%nat then s
        else set_regs s
               (jhash_final (absorb_spec (firstn L (bytes_at s)) (regs s)))).
Proof.
  intros H12 Hlen Hok Hl. unfold jhash_switch.
  rewrite Hlen, (switch_path_shape L H12), exec_stmts_app.
  destruct L as [| L]; [reflexivity |].
  rewrite (exec_absorb_stmts (S L) s Hok H12 Hl).
  cbn [bind Nat.eqb exec_stmts exec_stmt].
  now rewrite regs_set_regs, set_regs_set_regs.
Qed.

Lemma loop_body_regs_ok (cpu : byte_order) (s s' : state) :
  loop_body cpu s = Ok s' -> regs_ok (regs s').
Proof.
  unfold loop_body.
  destruct (get_unaligned_cpu32 cpu (st_key s) (st_k s)) as [w0 | |];
    cbn [bind]; try discriminate.
  destruct (get_unaligned_cpu32 cpu (st_key s) (st_k s + 4)) as [w1 | |];
    cbn [bind]; try discriminate.
  destruct (get_unaligned_cpu32 cpu (st_key s) (st_k s + 8)) as [w2 | |];
    cbn [bind]; try discriminate.
  pose proof (jhash_mix_ok (add32 (st_a s) w0, add32 (st_b s) w1,
                            add32 (st_c s) w2)) as Hm.
  destruct (jhash_mix _) as [[a b] c].
  intros [= <-]. apply Hm. repeat split; apply add32_ok.
Qed.

Lemma jhash_loop_regs_ok (cpu : byte_order) (fuel : nat) (s s' : state) :
  regs_ok (regs s) -> jhash_loop cpu fuel s = Ok s' -> regs_ok (regs s').
Proof.
  revert s. induction fuel as [| fuel IH]; intros s Hok;
    rewrite jhash_loop_eq; destruct (loop_cond s).
  - discriminate.
  - now intros [= <-].
  - destruct (loop_body cpu s) as [s1 | |] eqn:Hb; cbn [bind]; try discriminate.
    apply IH. now apply (loop_body_regs_ok cpu s).
  - now intros [= <-].
Qed.

Lemma exec_stmt_regs_ok (st : stmt) (s s' : state) :
  regs_ok (regs s) -> exec_stmt st s = Ok s' -> regs_ok (regs s').
Proof.
  intros Hok. destruct st as [r i sh | |]; cbn [exec_stmt].
  - destruct (read_u8 (st_key s) (st_k s) i) as [x | |]; cbn [bind];
      try discriminate.
    intros [= <-]. destruct Hok as (Ha & Hb & Hc).
    destruct r; unfold regs_ok, regs, set_reg, get_reg; cbn [st_a st_b st_c];
      (split; [| split]); try assumption; apply add32_ok.
  - intros E. apply Ok_inj in E. subst s'.
    rewrite regs_set_regs. now apply jhash_final_ok.
  - now intros [= <-].
Qed.

Lemma exec_stmts_regs_ok (ss : list stmt) (s s' : state) :
  regs_ok (regs s) -> exec_stmts ss s = Ok s' -> regs_ok (regs s').
Proof.
  revert s. induction ss as [| st ss IH]; intros s Hok; cbn [exec_stmts].
  - now intros [= <-].
  - destruct (exec_stmt st s) as [s1 | |] eqn:E; cbn [bind]; try discriminate.
    apply IH. now apply (exec_stmt_regs_ok st s).
Qed.

Lemma jhash_init_value (key : list byte) (length initval : Z) :
  add32 (add32 JHASH_INITVAL length) initval
  = (0xdeadbeef + length + initval) mod 2 ^ 32.
Proof.
  unfold add32. rewrite wrap32_add_l. reflexivity.
Qed.

(** [jhash] computes [jhash_spec] of the first [length] bytes of the key,
    whenever the buffer holds that many. *)
Lemma jhash_run_spec (cpu : byte_order) (key : list byte) (length initval : Z) :
  0 <= length < 2 ^ 32 ->
  (Z.to_nat length <= List.length key)%nat ->
  exists s,
    jhash_run cpu key length initval = Ok s /\
    st_key s = key /\
    regs_ok (regs s) /\
    st_c s = jhash_spec cpu (firstn (Z.to_nat length) key) initval.
Proof.
  intros Hlen Hkey. unfold jhash_run.
  destruct (jhash_loop_spec cpu (Z.to_nat length)
              (jhash_init key length initval))
    as (s0 & Hrun & Hk & Hrem & Hbs & _ & Hmix).
  { exact Hlen. }
  { exact Hkey. }
  { cbn [jhash_init st_length]. lia. }
  cbn [jhash_init st_length st_key] in Hk, Hrem.
  change (bytes_at (jhash_init key length initval)) with key in Hmix.
  cbn [jhash_init st_length] in Hmix.
  rewrite Hrun. cbn [bind].
  assert (Hok0 : regs_ok (regs s0)).
  { apply (jhash_loop_regs_ok cpu _ _ _ (jhash_init_ok key length initval) Hrun). }
  destruct (remainder_range length (proj1 Hlen)) as [Hr Hr0].
  rewrite <- Hrem in Hr, Hr0.
  rewrite (jhash_switch_spec (Z.to_nat (st_length s0)) s0);
    [| lia | lia | exact Hok0 | exact Hbs].
  eexists. split; [reflexivity |].
  unfold jhash_spec.
  rewrite firstn_length_le by exact Hkey. rewrite Z2Nat.id by lia.
  change (regs (jhash_init key length initval))
    with (add32 (add32 JHASH_INITVAL length) initval,
          add32 (add32 JHASH_INITVAL length) initval,
          add32 (add32 JHASH_INITVAL length) initval) in Hmix.
  rewrite (jhash_init_value key) in Hmix.
  unfold wrap32. rewrite Hmix.
  destruct (Z.to_nat (st_length s0)) as [| L] eqn:EL.
  - cbn [Nat.eqb firstn]. split; [exact Hk |]. split; [exact Hok0 |].
    reflexivity.
  - cbn [Nat.eqb]. rewrite st_key_set_regs, regs_set_regs, st_c_set_regs.
    split; [exact Hk |]. split; [apply jhash_final_ok, absorb_spec_ok |].
    destruct (bytes_at s0) as [| x l]; [cbn [List.length] in Hbs; lia |].
    cbn [firstn]. reflexivity.
Qed.

Lemma jhash_spec_correct (cpu : byte_order) (key : list byte)
      (length initval : Z) :
  0 <= length < 2 ^ 32 ->
  (Z.to_nat length <= List.length key)%nat ->
  jhash cpu key length initval
  = Ok (jhash_spec cpu (firstn (Z.to_nat length) key) initval).
Proof.
  intros Hlen Hkey. unfold jhash.
  destruct (jhash_run_spec cpu key length initval Hlen Hkey)
    as (s & -> & _ & _ & <-).
  reflexivity.
Qed.

Lemma not_in_absorb_stmts_final (L : nat) : ~ In FinalMix (absorb_stmts L).
Proof.
  unfold absorb_stmts. rewrite in_map_iff. intros (i & E & _). discriminate E.
Qed.

Lemma final_in_switch_path (n : Z) :
  In FinalMix (switch_path n) <-> 1 <= n <= 12.
Proof.
  destruct (Z.lt_ge_cases n 0) as [Hneg | Hpos].
  { rewrite switch_path_outside by lia. cbn [In]. lia. }
  destruct (Z.lt_ge_cases 12 n) as [Hbig | Hle].
  { rewrite switch_path_outside by lia. cbn [In]. lia. }
  rewrite <- (Z2Nat.id n Hpos).
  rewrite switch_path_shape by lia.
  rewrite in_app_iff. split.
  - intros [Hin | Hin]; [now apply not_in_absorb_stmts_final in Hin |].
    destruct (Nat.eqb_spec (Z.to_nat n) 0) as [E | E]; [destruct Hin | lia].
  - intros H. right.
    destruct (Nat.eqb_spec (Z.to_nat n) 0) as [E | E]; [lia | now left].
Qed.

(** ** The properties of the description *)

(** C1: the tail absorption.  For a remainder of [L <= 12] bytes the
    switch of [jhash] runs exactly the additions of the byte positions
    below [L] (from [L-1] down to [0], by fall-through), each into the
    word and at the shift of the fixed mapping: byte 0 into [a] unshifted,
    byte 1 into [a] shifted by 8, ..., byte 11 into [c] shifted by 24.
    Their effect is to add bytes 0..3 of the remainder, read as a
    little-endian number, to [a], bytes 4..7 to [b] and bytes 8..11 to
    [c], the positions from [L] on counting as absent; [jhash_switch], and
    with it [jhash], returns the registers so absorbed, passed through the
    final mix unless [L = 0]. *)
Theorem tail_absorption (L : nat) (s : state) :
  (L <= 12)%nat ->
  st_length s = Z.of_nat L ->
  regs_ok (regs s) ->
  (L <= length (bytes_at s))%nat ->
  let absorbed := absorb_spec (firstn L (bytes_at s)) (regs s) in
  map (fun i => (tail_reg i, tail_shift i)) (seq 0 12)
  = [ (RegA, 0); (RegA, 8); (RegA, 16); (RegA, 24);
      (RegB, 0); (RegB, 8); (RegB, 16); (RegB, 24);
      (RegC, 0); (RegC, 8); (RegC, 16); (RegC, 24) ] /\
  switch_path (st_length s)
  = absorb_stmts L ++ (if (L =? 0)%nat then [] else [FinalMix]) /\
  (forall r i sh,
      In (AddByte r i sh) (switch_path (st_length s))
      <-> (i < L)%nat /\ r = tail_reg i /\ sh = tail_shift i) /\
  exec_stmts (absorb_stmts L) s = Ok (set_regs s absorbed) /\
  jhash_switch s
  = Ok (if (L =? 0)%nat then s else set_regs s (jhash_final absorbed)) /\
  (forall cpu key length initval,
      jhash_loop cpu (Z.to_nat length) (jhash_init key length initval) = Ok s ->
      jhash_run cpu key length initval
      = Ok (if (L =? 0)%nat then s else set_regs s (jhash_final absorbed)) /\
      jhash cpu key length initval
      = Ok (if (L =? 0)%nat then st_c s else third (jhash_final absorbed))).
Proof.
  intros H12 Hlen Hok Hl absorbed.
  assert (Hsw : jhash_switch s
                = Ok (if (L =? 0)%nat then s
                      else set_regs s (jhash_final absorbed)))
    by (now apply jhash_switch_spec).
  rewrite Hlen.
  split; [reflexivity |].
  split; [now apply switch_path_shape |].
  split; [intros r i sh; now apply in_switch_path_add |].
  split; [now apply exec_absorb_stmts |].
  split; [exact Hsw |].
  intros cpu key length initval Hrun.
  unfold jhash, jhash_run. rewrite Hrun. cbn [bind]. rewrite Hsw. cbn [bind].
  split; [reflexivity |].
  destruct (L =? 0)%nat; [reflexivity |].
  now rewrite st_c_set_regs.
Qed.

Lemma tail_absorption_witness :
  let s := jhash_init [x61; x62; x63; x64; x65] 5 0 in
  let absorbed := absorb_spec (firstn 5 (bytes_at s)) (regs s) in
  map (fun i => (tail_reg i, tail_shift i)) (seq 0 12)
  = [ (RegA, 0); (RegA, 8); (RegA, 16); (RegA, 24);
      (RegB, 0); (RegB, 8); (RegB, 16); (RegB, 24);
      (RegC, 0); (RegC, 8); (RegC, 16); (RegC, 24) ] /\
  switch_path (st_length s)
  = absorb_stmts 5 ++ (if (5 =? 0)%nat then [] else [FinalMix]) /\
  (forall r i sh,
      In (AddByte r i sh) (switch_path (st_length s))
      <-> (i < 5)%nat /\ r = tail_reg i /\ sh = tail_shift i) /\
  exec_stmts (absorb_stmts 5) s = Ok (set_regs s absorbed) /\
  jhash_switch s
  = Ok (if (5 =? 0)%nat then s else set_regs s (jhash_final absorbed)) /\
  (forall cpu key length initval,
      jhash_loop cpu (Z.to_nat length) (jhash_init key length initval) = Ok s ->
      jhash_run cpu key length initval
      = Ok (if (5 =? 0)%nat then s else set_regs s (jhash_final absorbed)) /\
      jhash cpu key length initval
      = Ok (if (5 =? 0)%nat then st_c s else third (jhash_final absorbed))).
Proof.
  apply (tail_absorption 5 (jhash_init [x61; x62; x63; x64; x65] 5 0)).
  - lia.
  - reflexivity.
  - unfold regs_ok, u32_ok. vm_compute. intuition discriminate.
  - cbn. lia.
Defined.

(** C2, as stated, fails on a big-endian CPU: the words of a block are
    read in the byte order of the CPU, not composed little-endian.  For
    the 13-byte key 01 00 ... 00 with seed 0 the loop adds 0x01000000 to
    [a] there, where the little-endian composition of the same four bytes
    is 1, and the two hashes differ. *)
Lemma loop_reads_native_byte_order :
  let key := [x01; x00; x00; x00; x00; x00; x00; x00; x00; x00; x00; x00;
              x00] in
  let s := jhash_init key 13 0 in
  loop_cond s = true /\
  le_value [x01; x00; x00; x00] = 1 /\
  loop_body BigEndian s
  = Ok (next_block s (jhash_mix (add32 (st_a s) 0x01000000,
                                 add32 (st_b s) 0, add32 (st_c s) 0))) /\
  loop_body BigEndian s
  <> Ok (next_block s
           (jhash_mix (add32 (st_a s) (le_value [x01; x00; x00; x00]),
                       add32 (st_b s) (le_value [x00; x00; x00; x00]),
                       add32 (st_c s) (le_value [x00; x00; x00; x00])))) /\
  jhash BigEndian key 13 0 = Ok 1719687736 /\
  jhash LittleEndian key 13 0 = Ok 2082946309.
Proof.
  cbv zeta.
  split; [reflexivity |]. split; [reflexivity |].
  split; [vm_compute; reflexivity |].
  split; [vm_compute; intros E; discriminate E |].
  split; vm_compute; reflexivity.
Qed.

(** C2, amended: one iteration of the bulk loop.  While more than 12
    bytes remain, the loop of [jhash] reads three words from the next 12
    bytes in the byte order of the CPU (the little-endian composition of
    the four bytes on a little-endian CPU, the big-endian one on a
    big-endian CPU), adds them into [a], [b], [c], applies six rounds of
    subtract, rotate-XOR, add that cycle through the registers with the
    rotations 4, 6, 8, 16, 19, 4, and moves the cursor on by exactly 12
    bytes; the loop goes on from the state so reached, returns it when at
    most 12 bytes are left then, and returns in any case when the buffer
    holds the bytes still to hash. *)
Theorem loop_iteration (cpu : byte_order) (s : state)
      (b0 b1 b2 b3 b4 b5 b6 b7 b8 b9 b10 b11 : byte) (rest : list byte)
      (fuel : nat) :
  12 < st_length s < 2 ^ 32 ->
  bytes_at s = b0 :: b1 :: b2 :: b3 :: b4 :: b5 :: b6 :: b7
                  :: b8 :: b9 :: b10 :: b11 :: rest ->
  let w0 := word_of_bytes cpu b0 b1 b2 b3 in
  let w1 := word_of_bytes cpu b4 b5 b6 b7 in
  let w2 := word_of_bytes cpu b8 b9 b10 b11 in
  let s' := next_block s
              (mix_rounds [4; 6; 8; 16; 19; 4]
                 (add32 (st_a s) w0, add32 (st_b s) w1, add32 (st_c s) w2)) in
  loop_cond s = true /\
  loop_body cpu s = Ok s' /\
  jhash_loop cpu (S fuel) s = jhash_loop cpu fuel s' /\
  (st_length s <= 24 -> jhash_loop cpu (S fuel) s = Ok s') /\
  ((Z.to_nat (st_length s) <= length (bytes_at s))%nat ->
   st_length s <= Z.of_nat (S fuel) ->
   exists s_end,
     jhash_loop cpu (S fuel) s = Ok s_end /\
     0 <= st_length s_end <= 12 /\
     mix_blocks cpu (firstn (Z.to_nat (st_length s)) (bytes_at s)) (regs s)
     = (regs s_end, firstn (Z.to_nat (st_length s_end)) (bytes_at s_end))) /\
  (forall key length initval,
      s = jhash_init key length initval ->
      length <= 24 ->
      jhash_run cpu key length initval = jhash_switch s') /\
  st_key s' = st_key s /\
  st_k s' = (st_k s + 12)%nat /\
  st_length s' = st_length s - 12 /\
  bytes_at s' = rest /\
  w0 = match cpu with
       | LittleEndian => le_value [b0; b1; b2; b3]
       | BigEndian => le_value [b3; b2; b1; b0]
       end /\
  w1 = match cpu with
       | LittleEndian => le_value [b4; b5; b6; b7]
       | BigEndian => le_value [b7; b6; b5; b4]
       end /\
  w2 = match cpu with
       | LittleEndian => le_value [b8; b9; b10; b11]
       | BigEndian => le_value [b11; b10; b9; b8]
       end.
Proof.
  intros Hlen E w0 w1 w2 s'.
  assert (Hc : loop_cond s = true) by (unfold loop_cond; apply Z.ltb_lt; lia).
  assert (Hb : loop_body cpu s = Ok s').
  { rewrite (loop_body_block cpu s _ _ _ _ _ _ _ _ _ _ _ _ rest Hlen E).
    now rewrite jhash_mix_rounds. }
  assert (Hl' : st_length s' = st_length s - 12) by apply st_length_next_block.
  assert (Hstep : forall f, jhash_loop cpu (S f) s = jhash_loop cpu f s')
    by (intros f; cbn [jhash_loop]; now rewrite Hc, Hb).
  assert (Hone : forall f, st_length s <= 24 -> jhash_loop cpu (S f) s = Ok s').
  { intros f H24. rewrite Hstep, jhash_loop_eq.
    assert (Hc' : loop_cond s' = false)
      by (unfold loop_cond; rewrite Hl'; apply Z.ltb_ge; lia).
    now rewrite Hc'. }
  split; [exact Hc |]. split; [exact Hb |].
  split; [apply Hstep |].
  split; [apply Hone |].
  split.
  { intros Hbytes Hfuel.
    destruct (jhash_loop_spec cpu (S fuel) s)
      as (s_end & Hrun & _ & Hrem & _ & _ & Hmix); [lia | exact Hbytes | exact Hfuel |].
    exists s_end. split; [exact Hrun |]. split; [| exact Hmix].
    rewrite Hrem. apply remainder_range. lia. }
  split.
  { intros key length initval Hs H24. unfold jhash_run. rewrite <- Hs.
    assert (Elen : st_length s = length) by (rewrite Hs; reflexivity).
    replace (Z.to_nat length) with (S (Z.to_nat length - 1)) by lia.
    rewrite Hone by lia. reflexivity. }
  split; [apply st_key_next_block |].
  split; [apply st_k_next_block |].
  split; [exact Hl' |].
  split.
  { apply (bytes_at_next_block s _
             [b0; b1; b2; b3; b4; b5; b6; b7; b8; b9; b10; b11] rest);
      [reflexivity | exact E]. }
  unfold w0, w1, w2.
  destruct cpu; rewrite ?word_of_bytes_little, ?word_of_bytes_big;
    cbn [le_value]; (split; [| split]); ring.
Qed.

Lemma loop_iteration_witness :
  let s := jhash_init
             [x01; x02; x03; x04; x05; x06; x07; x08; x09; x0a; x0b; x0c; x0d]
             13 0 in
  let cpu := BigEndian in
  let fuel := 12%nat in
  let rest := [x0d] in
  let w0 := word_of_bytes cpu x01 x02 x03 x04 in
  let w1 := word_of_bytes cpu x05 x06 x07 x08 in
  let w2 := word_of_bytes cpu x09 x0a x0b x0c in
  let s' := next_block s
              (mix_rounds [4; 6; 8; 16; 19; 4]
                 (add32 (st_a s) w0, add32 (st_b s) w1, add32 (st_c s) w2)) in
  loop_cond s = true /\
  loop_body cpu s = Ok s' /\
  jhash_loop cpu (S fuel) s = jhash_loop cpu fuel s' /\
  (st_length s <= 24 -> jhash_loop cpu (S fuel) s = Ok s') /\
  ((Z.to_nat (st_length s) <= length (bytes_at s))%nat ->
   st_length s <= Z.of_nat (S fuel) ->
   exists s_end,
     jhash_loop cpu (S fuel) s = Ok s_end /\
     0 <= st_length s_end <= 12 /\
     mix_blocks cpu (firstn (Z.to_nat (st_length s)) (bytes_at s)) (regs s)
     = (regs s_end, firstn (Z.to_nat (st_length s_end)) (bytes_at s_end))) /\
  (forall key length initval,
      s = jhash_init key length initval ->
      length <= 24 ->
      jhash_run cpu key length initval = jhash_switch s') /\
  st_key s' = st_key s /\
  st_k s' = (st_k s + 12)%nat /\
  st_length s' = st_length s - 12 /\
  bytes_at s' = rest /\
  w0 = le_value [x04; x03; x02; x01] /\
  w1 = le_value [x08; x07; x06; x05] /\
  w2 = le_value [x0c; x0b; x0a; x09].
Proof.
  apply (loop_iteration BigEndian
           (jhash_init
              [x01; x02; x03; x04; x05; x06; x07; x08; x09; x0a; x0b; x0c; x0d]
              13 0)
           x01 x02 x03 x04 x05 x06 x07 x08 x09 x0a x0b x0c [x0d] 12).
  - cbn [jhash_init st_length]. lia.
  - reflexivity.
Defined.

(** C5: [jhash] starts from three equal registers
    [(0xdeadbeef + length + initval) mod 2^32]: the loop runs from that
    state and the hash is computed from it (block mixes, absorption and
    final mix applied to [(v, v, v)]).  The additions, subtractions and
    left shifts of the function are the mathematical ones reduced modulo
    2^32, so every register of the final state, and the hash itself, is a
    32-bit value. *)
Theorem jhash_arithmetic_mod_2_32 (key : list byte) (length initval : Z) :
  0 <= length < 2 ^ 32 ->
  (Z.to_nat length <= List.length key)%nat ->
  let v := (0xdeadbeef + length + initval) mod 2 ^ 32 in
  regs (jhash_init key length initval) = (v, v, v) /\
  (forall cpu,
      jhash_run cpu key length initval
      = (s <- jhash_loop cpu (Z.to_nat length) (mkState key 0 length v v v) ;;
         jhash_switch s)) /\
  (forall cpu,
      jhash cpu key length initval
      = Ok (let '(t, rem) :=
              mix_blocks cpu (firstn (Z.to_nat length) key) (v, v, v) in
            match rem with
            | [] => third t
            | _ :: _ => third (jhash_final (absorb_spec rem t))
            end)) /\
  (length = 0 -> forall cpu, jhash cpu key length initval = Ok v) /\
  (forall x y, add32 x y = (x + y) mod 2 ^ 32 /\
               sub32 x y = (x - y) mod 2 ^ 32 /\
               shl32 x y = Z.shiftl x y mod 2 ^ 32) /\
  (forall cpu, exists s,
      jhash_run cpu key length initval = Ok s /\ regs_ok (regs s)) /\
  (forall cpu, exists h,
      jhash cpu key length initval = Ok h /\ 0 <= h < 2 ^ 32).
Proof.
  intros Hlen Hkey v.
  assert (Hv : add32 (add32 JHASH_INITVAL length) initval = v)
    by apply (jhash_init_value key).
  assert (Hspec : forall cpu,
             jhash cpu key length initval
             = Ok (let '(t, rem) :=
                     mix_blocks cpu (firstn (Z.to_nat length) key) (v, v, v) in
                   match rem with
                   | [] => third t
                   | _ :: _ => third (jhash_final (absorb_spec rem t))
                   end)).
  { intros cpu. rewrite (jhash_spec_correct cpu key length initval Hlen Hkey).
    unfold jhash_spec.
    rewrite firstn_length_le by exact Hkey. rewrite Z2Nat.id by lia.
    reflexivity. }
  split.
  { unfold regs, jhash_init. cbn [st_a st_b st_c]. now rewrite Hv. }
  split.
  { intros cpu. unfold jhash_run, jhash_init. now rewrite Hv. }
  split; [exact Hspec |].
  split.
  { intros E0 cpu. rewrite Hspec, E0. reflexivity. }
  split; [intros x y; repeat split |].
  split.
  - intros cpu.
    destruct (jhash_run_spec cpu key length initval Hlen Hkey)
      as (s & Hrun & _ & Hok & _).
    exists s. split; [exact Hrun | exact Hok].
  - intros cpu.
    destruct (jhash_run_spec cpu key length initval Hlen Hkey)
      as (s & Hrun & _ & Hok & _).
    exists (st_c s). split; [unfold jhash; now rewrite Hrun | apply Hok].
Qed.

Lemma jhash_arithmetic_mod_2_32_witness :
  let key := [x66; x6f; x6f] in
  let v := (0xdeadbeef + 3 + 0x21524111) mod 2 ^ 32 in
  regs (jhash_init key 3 0x21524111) = (v, v, v) /\
  (forall cpu,
      jhash_run cpu key 3 0x21524111
      = (s <- jhash_loop cpu (Z.to_nat 3) (mkState key 0 3 v v v) ;;
         jhash_switch s)) /\
  (forall cpu,
      jhash cpu key 3 0x21524111
      = Ok (let '(t, rem) :=
              mix_blocks cpu (firstn (Z.to_nat 3) key) (v, v, v) in
            match rem with
            | [] => third t
            | _ :: _ => third (jhash_final (absorb_spec rem t))
            end)) /\
  (3 = 0 -> forall cpu, jhash cpu key 3 0x21524111 = Ok v) /\
  (forall x y, add32 x y = (x + y) mod 2 ^ 32 /\
               sub32 x y = (x - y) mod 2 ^ 32 /\
               shl32 x y = Z.shiftl x y mod 2 ^ 32) /\
  (forall cpu, exists s,
      jhash_run cpu key 3 0x21524111 = Ok s /\ regs_ok (regs s)) /\
  (forall cpu, exists h,
      jhash cpu key 3 0x21524111 = Ok h /\ 0 <= h < 2 ^ 32).
Proof.
  apply (jhash_arithmetic_mod_2_32 [x66; x6f; x6f] 3 0x21524111).
  - lia.
  - cbn. lia.
Defined.

(** The wrap-around at work in that example: 0xdeadbeef + 3 + 0x21524111
    is 2^32 + 3, and the registers start at 3. *)
Example jhash_init_wraps_3 :
  regs (jhash_init [x66; x6f; x6f] 3 0x21524111) = (3, 3, 3).
Proof. reflexivity. Qed.

(** The wrap-around at work: 0xdeadbeef + 0x21524111 is 2^32. *)
Example jhash_init_wraps (cpu : byte_order) :
  jhash cpu [] 0 0x21524111 = Ok 0.
Proof. reflexivity. Qed.

(** C6: the empty key.  The loop condition is false at once, no
    statement of the switch runs, and the result is
    [(0xdeadbeef + initval) mod 2^32]; with seed 0 it is 0xdeadbeef. *)
Theorem jhash_empty_key (cpu : byte_order) (key : list byte) (initval : Z) :
  loop_cond (jhash_init key 0 initval) = false /\
  jhash_loop cpu (Z.to_nat 0) (jhash_init key 0 initval)
  = Ok (jhash_init key 0 initval) /\
  switch_path 0 = [] /\
  jhash cpu key 0 initval = Ok ((0xdeadbeef + initval) mod 2 ^ 32) /\
  hash cpu [] initval = Ok ((0xdeadbeef + initval) mod 2 ^ 32) /\
  hash cpu [] 0 = Ok 0xdeadbeef.
Proof.
  assert (E : forall k, jhash cpu k 0 initval
                        = Ok ((0xdeadbeef + initval) mod 2 ^ 32)).
  { intros k. unfold jhash, jhash_run.
    change (jhash_loop cpu (Z.to_nat 0) (jhash_init k 0 initval))
      with (Ok (jhash_init k 0 initval)).
    cbn [bind].
    change (jhash_switch (jhash_init k 0 initval))
      with (Ok (jhash_init k 0 initval)).
    cbn [bind jhash_init st_c].
    rewrite (jhash_init_value k), Z.add_0_r. reflexivity. }
  split; [reflexivity |]. split; [reflexivity |]. split; [reflexivity |].
  split; [apply E |]. split; [apply (E []) |].
  reflexivity.
Qed.

(** C7: a key of exactly 12 bytes.  The loop condition [length > 12] is
    false on entry, so the loop body never runs; the switch is entered at
    [case 12] and falls through all twelve additions and the final mix. *)
Theorem jhash_twelve_byte_key (cpu : byte_order) (key : list byte)
      (initval : Z) :
  length key = 12%nat ->
  let s0 := jhash_init key 12 initval in
  loop_cond s0 = false /\
  jhash_loop cpu (Z.to_nat 12) s0 = Ok s0 /\
  switch_path (st_length s0)
  = [ AddByte RegC 11 24; AddByte RegC 10 16; AddByte RegC 9 8;
      AddByte RegC 8 0;
      AddByte RegB 7 24; AddByte RegB 6 16; AddByte RegB 5 8;
      AddByte RegB 4 0;
      AddByte RegA 3 24; AddByte RegA 2 16; AddByte RegA 1 8;
      AddByte RegA 0 0;
      FinalMix ] /\
  jhash_run cpu key 12 initval
  = Ok (set_regs s0 (jhash_final (absorb_spec key (regs s0)))) /\
  hash cpu key initval
  = Ok (third (jhash_final (absorb_spec key (regs s0)))).
Proof.
  intros Hlen s0.
  assert (Hloop : jhash_loop cpu (Z.to_nat 12) s0 = Ok s0)
    by (rewrite jhash_loop_eq; reflexivity).
  assert (Hrun : jhash_run cpu key 12 initval
                 = Ok (set_regs s0 (jhash_final (absorb_spec key (regs s0))))).
  { unfold jhash_run. fold s0. rewrite Hloop. cbn [bind].
    rewrite (jhash_switch_spec 12 s0).
    - change (bytes_at s0) with key.
      rewrite firstn_all2 by lia. reflexivity.
    - lia.
    - reflexivity.
    - apply jhash_init_ok.
    - change (bytes_at s0) with key. lia. }
  split; [reflexivity |]. split; [exact Hloop |]. split; [reflexivity |].
  split; [exact Hrun |].
  unfold hash, jhash. rewrite Hlen.
  change (Z.of_nat 12) with 12. rewrite Hrun. cbn [bind].
  now rewrite st_c_set_regs.
Qed.

Lemma jhash_twelve_byte_key_witness :
  let key := [x61; x62; x63; x64; x65; x66; x67; x68; x69; x6a; x6b; x6c] in
  let s0 := jhash_init key 12 0 in
  loop_cond s0 = false /\
  jhash_loop LittleEndian (Z.to_nat 12) s0 = Ok s0 /\
  switch_path (st_length s0)
  = [ AddByte RegC 11 24; AddByte RegC 10 16; AddByte RegC 9 8;
      AddByte RegC 8 0;
      AddByte RegB 7 24; AddByte RegB 6 16; AddByte RegB 5 8;
      AddByte RegB 4 0;
      AddByte RegA 3 24; AddByte RegA 2 16; AddByte RegA 1 8;
      AddByte RegA 0 0;
      FinalMix ] /\
  jhash_run LittleEndian key 12 0
  = Ok (set_regs s0 (jhash_final (absorb_spec key (regs s0)))) /\
  hash LittleEndian key 0
  = Ok (third (jhash_final (absorb_spec key (regs s0)))).
Proof.
  apply (jhash_twelve_byte_key LittleEndian
           [x61; x62; x63; x64; x65; x66; x67; x68; x69; x6a; x6b; x6c] 0).
  reflexivity.
Defined.

(** Sending the same 12 bytes through the loop body instead (one block,
    then nothing left for the switch) gives another value. *)
Example twelve_bytes_not_a_block :
  let key := [x61; x62; x63; x64; x65; x66; x67; x68; x69; x6a; x6b; x6c] in
  hash LittleEndian key 0 = Ok 1074985083 /\
  (s <- loop_body LittleEndian (jhash_init key 12 0) ;; Ok (st_c s))
  = Ok 3495681408.
Proof. split; vm_compute; reflexivity. Qed.

(** C3, as stated, fails: a key whose length is a non-zero multiple of 12
    leaves a remainder of 12, not 0.  For twelve zero bytes and seed 0 the
    loop returns at once with [length = 12], the switch runs the final
    mix, and the result is not the [c] of the initialisation. *)
Lemma remainder_of_twelve_bytes_is_not_zero :
  let key := repeat x00 12 in
  let s0 := jhash_init key 12 0 in
  12 mod 12 = 0 /\
  jhash_loop LittleEndian (Z.to_nat 12) s0 = Ok s0 /\
  st_length s0 = 12 /\
  In FinalMix (switch_path (st_length s0)) /\
  st_c s0 = 3735928571 /\
  jhash LittleEndian key 12 0 = Ok 459859287.
Proof.
  cbv zeta.
  split; [reflexivity |]. split; [reflexivity |]. split; [reflexivity |].
  split; [apply final_in_switch_path; cbn [jhash_init st_length]; lia |].
  split; vm_compute; reflexivity.
Qed.

(** C3, amended: the final mix is applied exactly when the remainder [L]
    left by the loop satisfies [1 <= L <= 12]: then the switch of [jhash]
    ends with it and the hash is the [c] it produces from the absorbed
    registers.  [L] is always in [0, 12], and it is 0 exactly when the key
    is empty ([length = 0]); a non-empty key whose length is a multiple of
    12 leaves 12.  With remainder 0 the switch does nothing, the state is
    still the initial one and its [c] is returned unchanged. *)
Theorem final_mix_iff_remainder (cpu : byte_order) (key : list byte)
      (length initval : Z) :
  0 <= length < 2 ^ 32 ->
  (Z.to_nat length <= List.length key)%nat ->
  exists s,
    jhash_loop cpu (Z.to_nat length) (jhash_init key length initval) = Ok s /\
    0 <= st_length s <= 12 /\
    st_length s = (if length =? 0 then 0 else (length - 1) mod 12 + 1) /\
    (In FinalMix (switch_path (st_length s)) <-> 1 <= st_length s <= 12) /\
    (st_length s = 0 <-> length = 0) /\
    jhash_switch s
    = Ok (if st_length s =? 0 then s
          else set_regs s
                 (jhash_final
                    (absorb_spec (firstn (Z.to_nat (st_length s)) (bytes_at s))
                                 (regs s)))) /\
    jhash cpu key length initval
    = Ok (if st_length s =? 0 then st_c s
          else third
                 (jhash_final
                    (absorb_spec (firstn (Z.to_nat (st_length s)) (bytes_at s))
                                 (regs s)))) /\
    (st_length s = 0 ->
     s = jhash_init key length initval /\
     jhash cpu key length initval = Ok (st_c s) /\
     st_c s = (0xdeadbeef + initval) mod 2 ^ 32).
Proof.
  intros Hlen Hkey.
  destruct (jhash_loop_spec cpu (Z.to_nat length)
              (jhash_init key length initval))
    as (s & Hrun & _ & Hrem & Hbs & Hsame & _).
  { exact Hlen. }
  { exact Hkey. }
  { cbn [jhash_init st_length]. lia. }
  cbn [jhash_init st_length] in Hrem, Hsame.
  destruct (remainder_range length (proj1 Hlen)) as [Hr Hr0].
  rewrite <- Hrem in Hr, Hr0.
  assert (Hok : regs_ok (regs s)).
  { apply (jhash_loop_regs_ok cpu _ _ _ (jhash_init_ok key length initval) Hrun). }
  assert (Hsw : jhash_switch s
                = Ok (if st_length s =? 0 then s
                      else set_regs s
                             (jhash_final
                                (absorb_spec
                                   (firstn (Z.to_nat (st_length s)) (bytes_at s))
                                   (regs s))))).
  { rewrite (jhash_switch_spec (Z.to_nat (st_length s)) s);
      [| lia | lia | exact Hok | exact Hbs].
    destruct (Z.eqb_spec (st_length s) 0) as [E0 | E0].
    - rewrite E0. reflexivity.
    - destruct (Nat.eqb_spec (Z.to_nat (st_length s)) 0) as [E | _];
        [lia | reflexivity]. }
  assert (Hj : jhash cpu key length initval
               = Ok (if st_length s =? 0 then st_c s
                     else third
                            (jhash_final
                               (absorb_spec
                                  (firstn (Z.to_nat (st_length s)) (bytes_at s))
                                  (regs s))))).
  { unfold jhash, jhash_run. rewrite Hrun. cbn [bind]. rewrite Hsw. cbn [bind].
    destruct (st_length s =? 0); [reflexivity | now rewrite st_c_set_regs]. }
  exists s.
  split; [exact Hrun |]. split; [exact Hr |]. split; [exact Hrem |].
  split; [apply final_in_switch_path |]. split; [exact Hr0 |].
  split; [exact Hsw |]. split; [exact Hj |].
  intros E0.
  assert (Es : s = jhash_init key length initval) by (apply Hsame; lia).
  split; [exact Es |].
  split; [rewrite Hj, E0; reflexivity |].
  assert (El : length = 0) by (apply Hr0; exact E0).
  rewrite Es, El. cbn [jhash_init st_c].
  rewrite (jhash_init_value key), Z.add_0_r. reflexivity.
Qed.

Lemma final_mix_iff_remainder_witness :
  exists s,
    jhash_loop LittleEndian (Z.to_nat 24)
      (jhash_init (repeat x00 24) 24 0) = Ok s /\
    0 <= st_length s <= 12 /\
    st_length s = (if 24 =? 0 then 0 else (24 - 1) mod 12 + 1) /\
    (In FinalMix (switch_path (st_length s)) <-> 1 <= st_length s <= 12) /\
    (st_length s = 0 <-> 24 = 0) /\
    jhash_switch s
    = Ok (if st_length s =? 0 then s
          else set_regs s
                 (jhash_final
                    (absorb_spec (firstn (Z.to_nat (st_length s)) (bytes_at s))
                                 (regs s)))) /\
    jhash LittleEndian (repeat x00 24) 24 0
    = Ok (if st_length s =? 0 then st_c s
          else third
                 (jhash_final
                    (absorb_spec (firstn (Z.to_nat (st_length s)) (bytes_at s))
                                 (regs s)))) /\
    (st_length s = 0 ->
     s = jhash_init (repeat x00 24) 24 0 /\
     jhash LittleEndian (repeat x00 24) 24 0 = Ok (st_c s) /\
     st_c s = (0xdeadbeef + 0) mod 2 ^ 32).
Proof.
  apply (final_mix_iff_remainder LittleEndian (repeat x00 24) 24 0).
  - lia.
  - cbn. lia.
Defined.

(** C4, as stated, fails: the steps of the final mix are not rounds of
    subtract, rotate-XOR, add.  Seven such rounds (the round of the bulk
    mix, [mix_round]) with the rotations 14, 11, 25, 16, 4, 14, 24 send
    (0, 0, 1) to a triple none of whose words is the [c] that
    [__jhash_final] computes from (0, 0, 1); already the first step
    differs: [c ^= b; c -= rol32(b, 14)] leaves (0, 0, 1) as it is, the
    round [a -= c; a ^= rol32(c, 14); c += b] does not. *)
Lemma final_mix_is_not_mix_rounds :
  jhash_final (0, 0, 1) = (3174187776, 3054341061, 4029311561) /\
  mix_rounds [14; 11; 25; 16; 4; 14; 24] (0, 0, 1)
  = (2256385661, 4019104817, 3758774704) /\
  final_step 14 (0, 0, 1) = (0, 0, 1) /\
  mix_round 14 (0, 0, 1) = (4294950911, 0, 1) /\
  jhash LittleEndian [x01] 1 0 = Ok 82610235 /\
  mix_rounds [14; 11; 25; 16; 4; 14; 24]
    (absorb_spec [x01] (regs (jhash_init [x01] 1 0)))
  = (2457076165, 4174768694, 3799764006).
Proof.
  split; [vm_compute; reflexivity |]. split; [vm_compute; reflexivity |].
  split; [vm_compute; reflexivity |]. split; [vm_compute; reflexivity |].
  split; vm_compute; reflexivity.
Qed.

(** C4, amended: the final mix.  When the remainder is between 1 and 12
    the switch ends with [__jhash_final], which is seven steps run in this
    order with the rotations 14, 11, 25, 16, 4, 14, 24; each step XORs one
    register with its neighbour and then subtracts the neighbour rotated
    ([final_step]: [x ^= y; x -= rol32(y, r)], no addition), and the
    steps cycle through [c], [a], [b].  The hash returned is the register
    [c] that results. *)
Theorem final_mix_steps (L : nat) (s : state) :
  (1 <= L <= 12)%nat ->
  st_length s = Z.of_nat L ->
  regs_ok (regs s) ->
  (L <= length (bytes_at s))%nat ->
  let t := absorb_spec (firstn L (bytes_at s)) (regs s) in
  In FinalMix (switch_path (st_length s)) /\
  jhash_final t
  = cycle (cycle (fold_left (fun u r => cycle (final_step r u))
                            [14; 11; 25; 16; 4; 14; 24] t)) /\
  jhash_switch s = Ok (set_regs s (jhash_final t)) /\
  (forall cpu key length initval,
      jhash_loop cpu (Z.to_nat length) (jhash_init key length initval) = Ok s ->
      jhash cpu key length initval = Ok (third (jhash_final t))).
Proof.
  intros HL Hlen Hok Hbs t.
  assert (Hsw : jhash_switch s = Ok (set_regs s (jhash_final t))).
  { rewrite (jhash_switch_spec L s); [| lia | exact Hlen | exact Hok | exact Hbs].
    destruct (Nat.eqb_spec L 0) as [E | _]; [lia | reflexivity]. }
  split; [apply final_in_switch_path; lia |].
  split; [apply jhash_final_steps |].
  split; [exact Hsw |].
  intros cpu key length initval Hrun.
  unfold jhash, jhash_run. rewrite Hrun. cbn [bind]. rewrite Hsw. cbn [bind].
  now rewrite st_c_set_regs.
Qed.

Lemma final_mix_steps_witness :
  let s := jhash_init [x66; x6f; x6f] 3 0 in
  let t := absorb_spec (firstn 3 (bytes_at s)) (regs s) in
  In FinalMix (switch_path (st_length s)) /\
  jhash_final t
  = cycle (cycle (fold_left (fun u r => cycle (final_step r u))
                            [14; 11; 25; 16; 4; 14; 24] t)) /\
  jhash_switch s = Ok (set_regs s (jhash_final t)) /\
  (forall cpu key length initval,
      jhash_loop cpu (Z.to_nat length) (jhash_init key length initval) = Ok s ->
      jhash cpu key length initval = Ok (third (jhash_final t))).
Proof.
  apply (final_mix_steps 3 (jhash_init [x66; x6f; x6f] 3 0)).
  - lia.
  - reflexivity.
  - unfold regs_ok, u32_ok. vm_compute. intuition discriminate.
  - cbn. lia.
Defined.

(** The first step of the final mix on (0, 0, 1) and the whole of it. *)
Example jhash_final_example :
  final_step 14 (0, 0, 1) = (0, 0, 1) /\
  final_step 11 (cycle (final_step 14 (0, 0, 1))) = (0, 1, 0xfffff801) /\
  jhash_final (0, 0, 1) = (3174187776, 3054341061, 4029311561).
Proof. repeat split. Qed.

Lemma firstn_agree {A : Type} (n : nat) (l1 l2 : list A) :
  (n <= length l1)%nat -> (n <= length l2)%nat ->
  (forall i, (i < n)%nat -> nth_error l1 i = nth_error l2 i) ->
  firstn n l1 = firstn n l2.
Proof.
  revert l1 l2. induction n as [| n IH]; intros l1 l2 H1 H2 Hnth.
  - reflexivity.
  - destruct l1 as [| x1 l1]; [cbn [length] in H1; lia |].
    destruct l2 as [| x2 l2]; [cbn [length] in H2; lia |].
    cbn [length] in H1, H2. cbn [firstn]. f_equal.
    + specialize (Hnth 0%nat). cbn [nth_error] in Hnth.
      assert (E : Some x1 = Some x2) by (apply Hnth; lia).
      now injection E.
    + apply IH; [lia | lia |].
      intros i Hi. apply (Hnth (S i)). lia.
Qed.

(** C8: [jhash] is a total function of the key, the length and the
    seed: whenever the buffer holds [length] bytes the call finishes, with
    no read outside the buffer and without running out of steps; it
    returns a 32-bit value, the same one at every evaluation (it is the
    function [jhash_spec] of the bytes hashed and the seed), and the key
    buffer of the final state is the one passed in. *)
Theorem jhash_total_deterministic (cpu : byte_order) (key : list byte)
      (length initval : Z) :
  0 <= length < 2 ^ 32 ->
  (Z.to_nat length <= List.length key)%nat ->
  exists s h,
    jhash_run cpu key length initval = Ok s /\
    st_key s = key /\
    jhash cpu key length initval = Ok h /\
    0 <= h < 2 ^ 32 /\
    h = jhash_spec cpu (firstn (Z.to_nat length) key) initval /\
    (forall r1 r2,
        r1 = jhash cpu key length initval ->
        r2 = jhash cpu key length initval -> r1 = r2).
Proof.
  intros Hlen Hkey.
  destruct (jhash_run_spec cpu key length initval Hlen Hkey)
    as (s & Hrun & Hk & Hok & Hc).
  exists s, (st_c s).
  split; [exact Hrun |]. split; [exact Hk |].
  split; [unfold jhash; now rewrite Hrun |].
  split; [apply Hok |]. split; [exact Hc |].
  intros r1 r2 -> ->. reflexivity.
Qed.

Lemma jhash_total_deterministic_witness :
  exists s h,
    jhash_run LittleEndian [x66; x6f; x6f; x62; x61; x72] 3 0 = Ok s /\
    st_key s = [x66; x6f; x6f; x62; x61; x72] /\
    jhash LittleEndian [x66; x6f; x6f; x62; x61; x72] 3 0 = Ok h /\
    0 <= h < 2 ^ 32 /\
    h = jhash_spec LittleEndian
          (firstn (Z.to_nat 3) [x66; x6f; x6f; x62; x61; x72]) 0 /\
    (forall r1 r2,
        r1 = jhash LittleEndian [x66; x6f; x6f; x62; x61; x72] 3 0 ->
        r2 = jhash LittleEndian [x66; x6f; x6f; x62; x61; x72] 3 0 ->
        r1 = r2).
Proof.
  apply (jhash_total_deterministic LittleEndian
           [x66; x6f; x6f; x62; x61; x72] 3 0).
  - lia.
  - cbn. lia.
Defined.

(** C10: the hash depends on the first [length] bytes of the buffer
    only.  Two buffers that agree below [length] give the same hash, and
    so does the buffer cut off at [length]: there a read at [length] or
    beyond would be [OutOfBounds], so none takes place. *)
Theorem jhash_reads_prefix_only (cpu : byte_order) (key1 key2 : list byte)
      (length initval : Z) :
  0 <= length < 2 ^ 32 ->
  (Z.to_nat length <= List.length key1)%nat ->
  (Z.to_nat length <= List.length key2)%nat ->
  (forall i, (i < Z.to_nat length)%nat -> nth_error key1 i = nth_error key2 i) ->
  exists h,
    jhash cpu key1 length initval = Ok h /\
    jhash cpu key2 length initval = Ok h /\
    jhash cpu (firstn (Z.to_nat length) key1) length initval = Ok h.
Proof.
  intros Hlen H1 H2 Hagree.
  pose proof (firstn_agree (Z.to_nat length) key1 key2 H1 H2 Hagree) as E.
  exists (jhash_spec cpu (firstn (Z.to_nat length) key1) initval).
  split; [now apply jhash_spec_correct |].
  split; [rewrite E; now apply jhash_spec_correct |].
  assert (Hcut : (Z.to_nat length
                  <= List.length (firstn (Z.to_nat length) key1))%nat)
    by (rewrite firstn_length_le by exact H1; lia).
  pose proof (jhash_spec_correct cpu _ length initval Hlen Hcut) as E2.
  rewrite firstn_firstn, Nat.min_id in E2. exact E2.
Qed.

Lemma jhash_reads_prefix_only_witness :
  exists h,
    jhash LittleEndian [x66; x6f; x6f; x62; x61; x72] 3 0 = Ok h /\
    jhash LittleEndian [x66; x6f; x6f; xff] 3 0 = Ok h /\
    jhash LittleEndian
      (firstn (Z.to_nat 3) [x66; x6f; x6f; x62; x61; x72]) 3 0 = Ok h.
Proof.
  apply (jhash_reads_prefix_only LittleEndian
           [x66; x6f; x6f; x62; x61; x72] [x66; x6f; x6f; xff] 3 0).
  - lia.
  - cbn. lia.
  - cbn. lia.
  - intros i Hi. change (Z.to_nat 3) with 3%nat in Hi.
    destruct i as [| [| [| i]]]; [reflexivity | reflexivity | reflexivity | lia].
Defined.

(** ** Further properties *)

Lemma hash_computes_jhash_spec_aux (cpu : byte_order) (key : list byte)
      (initval : Z) :
  Z.of_nat (length key) < 2 ^ 32 ->
  hash cpu key initval = Ok (jhash_spec cpu key initval).
Proof.
  intros Hlen. unfold hash.
  rewrite jhash_spec_correct by (rewrite ?Nat2Z.id; lia).
  now rewrite Nat2Z.id, firstn_all.
Qed.

(** [jhash] on a whole byte string is the function [jhash_spec] of the
    string and the seed. *)
Theorem hash_computes_jhash_spec (cpu : byte_order) (key : list byte)
      (initval : Z) :
  Z.of_nat (length key) < 2 ^ 32 ->
  hash cpu key initval = Ok (jhash_spec cpu key initval).
Proof.
  intros Hlen. now apply hash_computes_jhash_spec_aux.
Qed.

Lemma hash_computes_jhash_spec_witness :
  hash BigEndian [x66; x6f; x6f] 7
  = Ok (jhash_spec BigEndian [x66; x6f; x6f] 7).
Proof.
  apply (hash_computes_jhash_spec BigEndian [x66; x6f; x6f] 7).
  cbn. lia.
Defined.

(** The function reproduces the published values of lookup3's
    [hashlittle] on a little-endian CPU: the empty string, and "Four score
    and seven years ago" with seeds 0 and 1. *)
Example lookup3_vectors :
  let four_score :=
    [x46; x6f; x75; x72; x20; x73; x63; x6f; x72; x65; x20; x61; x6e; x64;
     x20; x73; x65; x76; x65; x6e; x20; x79; x65; x61; x72; x73; x20; x61;
     x67; x6f] in
  hash LittleEndian [] 0 = Ok 0xdeadbeef /\
  hash LittleEndian four_score 0 = Ok 0x17770551 /\
  hash LittleEndian four_score 1 = Ok 0xcd628161.
Proof. cbv zeta. repeat split; vm_compute; reflexivity. Qed.

(** Keys of at most 12 bytes never reach [__get_unaligned_cpu32], so
    their hash is the same on either CPU; from 13 bytes on it depends on
    the byte order. *)
Theorem hash_short_key_any_cpu (key : list byte) (initval : Z) :
  (length key <= 12)%nat ->
  hash LittleEndian key initval = hash BigEndian key initval.
Proof.
  intros Hlen.
  rewrite !hash_computes_jhash_spec_aux by lia.
  unfold jhash_spec, mix_blocks.
  now rewrite !fold_blocks_short by exact Hlen.
Qed.

Lemma hash_short_key_any_cpu_witness :
  hash LittleEndian [x61; x62; x63; x64; x65; x66; x67; x68; x69; x6a; x6b; x6c] 5
  = hash BigEndian [x61; x62; x63; x64; x65; x66; x67; x68; x69; x6a; x6b; x6c] 5.
Proof.
  apply (hash_short_key_any_cpu
           [x61; x62; x63; x64; x65; x66; x67; x68; x69; x6a; x6b; x6c] 5).
  cbn. lia.
Defined.

(** "The result depends on endianness": a 14-byte key. *)
Example hash_depends_on_byte_order :
  let key := [x61; x62; x63; x64; x65; x66; x67; x68; x69; x6a; x6b; x6c;
              x6d; x6e] in
  hash LittleEndian key 0 = Ok 733499128 /\
  hash BigEndian key 0 = Ok 392125445.
Proof. cbv zeta. split; vm_compute; reflexivity. Qed.

(** Chaining, as the debug [main] does: the hash of "foo" seeds the hash
    of "bar". *)
Example hash_chaining :
  hash LittleEndian [x66; x6f; x6f] 0 = Ok 3784272022 /\
  (h <- hash LittleEndian [x66; x6f; x6f] 0 ;;
   hash LittleEndian [x62; x61; x72] h) = Ok 254490182.
Proof. split; vm_compute; reflexivity. Qed.

(** The seed and the length both reach the result. *)
Example hash_seed_and_length_sensitive :
  hash LittleEndian [x61] 0 <> hash LittleEndian [x61] 1 /\
  hash LittleEndian [x61] 0 <> hash LittleEndian [x61; x00] 0 /\
  hash LittleEndian [x01] 0 = Ok 82610235.
Proof.
  split; [vm_compute; discriminate |].
  split; [vm_compute; discriminate | vm_compute; reflexivity].
Qed.

Lemma rol32_value (word shift : Z) :
  u32_ok word ->
  0 < shift < 32 ->
  rol32 word shift
  = (word mod 2 ^ (32 - shift)) * 2 ^ shift + word / 2 ^ (32 - shift).
Proof.
  intros [Hw Hw'] Hs.
  assert (Hp1 : 0 < 2 ^ shift) by (apply Z.pow_pos_nonneg; lia).
  assert (Hp2 : 0 < 2 ^ (32 - shift)) by (apply Z.pow_pos_nonneg; lia).
  assert (Hpow : 2 ^ 32 = 2 ^ (32 - shift) * 2 ^ shift).
  { rewrite <- Z.pow_add_r by lia. f_equal. lia. }
  assert (Hn : Z.land (neg32 shift) 31 = 32 - shift).
  { unfold neg32, wrap32. change 31 with (Z.ones 5).
    rewrite Z.land_ones by lia.
    replace (- shift) with (2 ^ 32 - shift + (-1) * 2 ^ 32) by ring.
    rewrite Z.mod_add by lia.
    rewrite (Z.mod_small (2 ^ 32 - shift)) by lia.
    replace (2 ^ 32 - shift) with (32 - shift + (2 ^ 27 - 1) * 2 ^ 5) by lia.
    rewrite Z.mod_add by lia. apply Z.mod_small. lia. }
  assert (Hshl : (word * 2 ^ shift) mod 2 ^ 32
                 = Z.shiftl (word mod 2 ^ (32 - shift)) shift).
  { rewrite Hpow, Z.mul_mod_distr_r by lia.
    now rewrite Z.shiftl_mul_pow2 by lia. }
  unfold rol32, shl32, shr32, wrap32. rewrite Hn.
  rewrite Z.shiftl_mul_pow2, Z.shiftr_div_pow2 by lia.
  rewrite !Hshl.
  rewrite Z.lor_comm, lor_shiftl_add; [| lia |].
  - ring.
  - split; [apply Z.div_pos; lia |].
    apply Z.div_lt_upper_bound; lia.
Qed.

(** [rol32] is the rotation to the left: the bits shifted out at the top
    come back in at the bottom. *)
Theorem rol32_rotates (word shift : Z) :
  u32_ok word ->
  0 < shift < 32 ->
  rol32 word shift
  = (word * 2 ^ shift) mod 2 ^ 32 + word / 2 ^ (32 - shift).
Proof.
  intros Hw Hs. rewrite (rol32_value word shift Hw Hs). f_equal.
  assert (Hpow : 2 ^ 32 = 2 ^ (32 - shift) * 2 ^ shift).
  { rewrite <- Z.pow_add_r by lia. f_equal. lia. }
  assert (Hp1 : 0 < 2 ^ shift) by (apply Z.pow_pos_nonneg; lia).
  assert (Hp2 : 0 < 2 ^ (32 - shift)) by (apply Z.pow_pos_nonneg; lia).
  rewrite Hpow, Z.mul_mod_distr_r by lia. reflexivity.
Qed.

Lemma rol32_rotates_witness :
  rol32 0x80000001 4 = (0x80000001 * 2 ^ 4) mod 2 ^ 32 + 0x80000001 / 2 ^ (32 - 4).
Proof.
  apply (rol32_rotates 0x80000001 4).
  - unfold u32_ok. lia.
  - lia.
Defined.

Example rol32_example : rol32 0x80000001 4 = 0x18.
Proof. reflexivity. Qed.

(** Rotating by [shift] and then by [32 - shift] gives the word back, and
    a rotation by 0 changes nothing. *)
Theorem rol32_round_trip (word shift : Z) :
  u32_ok word ->
  0 < shift < 32 ->
  rol32 (rol32 word shift) (32 - shift) = word /\ rol32 word 0 = word.
Proof.
  intros Hw Hs. pose proof Hw as [Hw0 Hw1].
  assert (Hp1 : 0 < 2 ^ shift) by (apply Z.pow_pos_nonneg; lia).
  assert (Hp2 : 0 < 2 ^ (32 - shift)) by (apply Z.pow_pos_nonneg; lia).
  assert (Hpow : 2 ^ 32 = 2 ^ (32 - shift) * 2 ^ shift).
  { rewrite <- Z.pow_add_r by lia. f_equal. lia. }
  split.
  - rewrite (rol32_value (rol32 word shift) (32 - shift))
      by (try apply rol32_ok; try assumption; lia).
    rewrite (rol32_value word shift Hw Hs).
    replace (32 - (32 - shift)) with shift by ring.
    set (hi := word / 2 ^ (32 - shift)).
    set (lo := word mod 2 ^ (32 - shift)).
    assert (Hhi : 0 <= hi < 2 ^ shift).
    { unfold hi. split; [apply Z.div_pos; lia |].
      apply Z.div_lt_upper_bound; lia. }
    assert (Hlo : 0 <= lo < 2 ^ (32 - shift))
      by (unfold lo; apply Z.mod_pos_bound; lia).
    assert (E1 : (lo * 2 ^ shift + hi) mod 2 ^ shift = hi).
    { rewrite Z.add_comm, Z.mod_add by lia. apply Z.mod_small. lia. }
    assert (E2 : (lo * 2 ^ shift + hi) / 2 ^ shift = lo).
    { rewrite Z.div_add_l by lia. rewrite (Z.div_small hi) by lia. ring. }
    rewrite E1, E2. unfold hi, lo.
    pose proof (Z.div_mod word (2 ^ (32 - shift))) as Hdm. lia.
  - unfold rol32, shl32, shr32, neg32.
    change (Z.land (wrap32 (- 0)) 31) with 0.
    rewrite Z.shiftl_0_r, Z.shiftr_0_r, (wrap32_small word Hw).
    apply Z.lor_diag.
Qed.

Lemma rol32_round_trip_witness :
  rol32 (rol32 0xdeadbeef 19) (32 - 19) = 0xdeadbeef /\
  rol32 0xdeadbeef 0 = 0xdeadbeef.
Proof.
  apply (rol32_round_trip 0xdeadbeef 19).
  - unfold u32_ok. lia.
  - lia.
Defined.

(** For a table of [2^n] buckets, [n < 32]: [jhash_size(n)] is [2^n],
    [jhash_mask(n)] is [2^n - 1], and masking a 32-bit value with it is
    the value modulo the table size, a valid bucket index. *)
Theorem jhash_mask_is_modulo (n value : Z) :
  0 <= n < 32 ->
  u32_ok value ->
  jhash_size n = 2 ^ n /\
  jhash_mask n = 2 ^ n - 1 /\
  Z.land value (jhash_mask n) = value mod jhash_size n /\
  0 <= Z.land value (jhash_mask n) < jhash_size n.
Proof.
  intros Hn Hv.
  assert (Hp : 0 < 2 ^ n) by (apply Z.pow_pos_nonneg; lia).
  assert (Hlt : 2 ^ n < 2 ^ 32) by (apply Z.pow_lt_mono_r; lia).
  assert (Hsize : jhash_size n = 2 ^ n).
  { unfold jhash_size, shl32. rewrite Z.shiftl_mul_pow2 by lia.
    rewrite Z.mul_1_l. apply wrap32_small. unfold u32_ok. lia. }
  assert (Hmask : jhash_mask n = 2 ^ n - 1).
  { unfold jhash_mask, sub32. rewrite Hsize.
    apply wrap32_small. unfold u32_ok. lia. }
  assert (Hland : Z.land value (jhash_mask n) = value mod jhash_size n).
  { rewrite Hmask, Hsize, <- Z.land_ones by lia.
    now rewrite Z.ones_equiv, <- Z.sub_1_r. }
  split; [exact Hsize |]. split; [exact Hmask |]. split; [exact Hland |].
  rewrite Hland, Hsize. apply Z.mod_pos_bound. exact Hp.
Qed.

Lemma jhash_mask_is_modulo_witness :
  jhash_size 10 = 2 ^ 10 /\
  jhash_mask 10 = 2 ^ 10 - 1 /\
  Z.land 0xdeadbeef (jhash_mask 10) = 0xdeadbeef mod jhash_size 10 /\
  0 <= Z.land 0xdeadbeef (jhash_mask 10) < jhash_size 10.
Proof.
  apply (jhash_mask_is_modulo 10 0xdeadbeef).
  - lia.
  - unfold u32_ok. lia.
Defined.

(** ** Rounds that can be undone *)

Section Rounds.
Variables step step_inv : Z -> Z * Z * Z -> Z * Z * Z.
Hypothesis step_ok : forall r t, regs_ok t -> regs_ok (step r t).
Hypothesis step_inv_ok : forall r t, regs_ok t -> regs_ok (step_inv r t).
Hypothesis step_inv_l : forall r t, regs_ok t -> step_inv r (step r t) = t.
Hypothesis step_inv_r : forall r t, regs_ok t -> step r (step_inv r t) = t.

Lemma rounds_ok (rs : list Z) (t : Z * Z * Z) :
  regs_ok t -> regs_ok (fold_left (fun u r => cycle (step r u)) rs t).
Proof.
  revert t. induction rs as [| r rs IH]; intros t Ht; cbn [fold_left].
  - exact Ht.
  - apply IH, cycle_ok, step_ok, Ht.
Qed.

Lemma rounds_inv_ok (rs : list Z) (t : Z * Z * Z) :
  regs_ok t ->
  regs_ok (fold_right (fun r u => step_inv r (cycle (cycle u))) t rs).
Proof.
  intros Ht. induction rs as [| r rs IH]; cbn [fold_right].
  - exact Ht.
  - apply step_inv_ok, cycle_ok, cycle_ok, IH.
Qed.

Lemma rounds_inv_l (rs : list Z) (t : Z * Z * Z) :
  regs_ok t ->
  fold_right (fun r u => step_inv r (cycle (cycle u)))
             (fold_left (fun u r => cycle (step r u)) rs t) rs
  = t.
Proof.
  revert t. induction rs as [| r rs IH]; intros t Ht;
    cbn [fold_left fold_right].
  - reflexivity.
  - rewrite IH by (apply cycle_ok, step_ok, Ht).
    rewrite cycle_cycle_cycle. apply step_inv_l, Ht.
Qed.

Lemma rounds_inv_r (rs : list Z) (t : Z * Z * Z) :
  regs_ok t ->
  fold_left (fun u r => cycle (step r u)) rs
            (fold_right (fun r u => step_inv r (cycle (cycle u))) t rs)
  = t.
Proof.
  intros Ht. induction rs as [| r rs IH]; cbn [fold_left fold_right].
  - reflexivity.
  - rewrite step_inv_r by (apply cycle_ok, cycle_ok, rounds_inv_ok, Ht).
    rewrite cycle_cycle_cycle. exact IH.
Qed.
End Rounds.

Lemma final_step_inv_ok (r : Z) (t : Z * Z * Z) :
  regs_ok t -> regs_ok (final_step_inv r t).
Proof.
  destruct t as [[x y] z]. unfold regs_ok, final_step_inv.
  intros (Hx & Hy & Hz).
  split; [exact Hx |]. split; [exact Hy |].
  apply xor32_ok; [apply add32_ok | exact Hy].
Qed.

Lemma final_step_inv_l (r : Z) (t : Z * Z * Z) :
  regs_ok t -> final_step_inv r (final_step r t) = t.
Proof.
  destruct t as [[x y] z]. unfold regs_ok, final_step, final_step_inv.
  intros (Hx & Hy & Hz).
  rewrite add32_sub32 by (now apply xor32_ok).
  now rewrite xor32_xor32.
Qed.

Lemma final_step_inv_r (r : Z) (t : Z * Z * Z) :
  regs_ok t -> final_step r (final_step_inv r t) = t.
Proof.
  destruct t as [[x y] z]. unfold regs_ok, final_step, final_step_inv.
  intros (Hx & Hy & Hz).
  rewrite xor32_xor32. now rewrite sub32_add32.
Qed.

(** [__jhash_final] loses nothing by itself: on triples of 32-bit values
    it is a bijection, undone by [jhash_final_inv]; the hash forgets [a]
    and [b] only when it returns [c]. *)
Theorem jhash_final_bijective (t : Z * Z * Z) :
  regs_ok t ->
  regs_ok (jhash_final t) /\
  jhash_final_inv (jhash_final t) = t /\
  jhash_final (jhash_final_inv t) = t /\
  regs_ok (jhash_final_inv t) /\
  forall u, regs_ok u -> jhash_final u = t -> u = jhash_final_inv t.
Proof.
  intros Ht.
  assert (Hl : forall u, regs_ok u -> jhash_final_inv (jhash_final u) = u).
  { intros u Hu. unfold jhash_final_inv. rewrite jhash_final_steps.
    rewrite cycle_cycle_cycle. unfold final_steps.
    apply (rounds_inv_l final_step final_step_inv
             final_step_ok final_step_inv_l _ _ Hu). }
  split; [apply jhash_final_ok, Ht |].
  split; [apply Hl, Ht |].
  assert (Hinv : regs_ok (jhash_final_inv t)).
  { unfold jhash_final_inv.
    apply (rounds_inv_ok final_step_inv final_step_inv_ok), cycle_ok, Ht. }
  split.
  - rewrite jhash_final_steps. unfold jhash_final_inv, final_steps.
    rewrite (rounds_inv_r final_step final_step_inv
               final_step_inv_ok final_step_inv_r)
      by (apply cycle_ok, Ht).
    apply cycle_cycle_cycle.
  - split; [exact Hinv |].
    intros u Hu E. rewrite <- E. symmetry. apply Hl, Hu.
Qed.

Lemma jhash_final_bijective_witness :
  regs_ok (jhash_final (1, 2, 3)) /\
  jhash_final_inv (jhash_final (1, 2, 3)) = (1, 2, 3) /\
  jhash_final (jhash_final_inv (1, 2, 3)) = (1, 2, 3) /\
  regs_ok (jhash_final_inv (1, 2, 3)) /\
  forall u, regs_ok u -> jhash_final u = (1, 2, 3) ->
            u = jhash_final_inv (1, 2, 3).
Proof.
  apply (jhash_final_bijective (1, 2, 3)).
  unfold regs_ok, u32_ok. lia.
Defined.

(** ** Reads outside the buffer *)

Lemma absorb_stmts_S (L : nat) :
  absorb_stmts (S L) = AddByte (tail_reg L) L (tail_shift L) :: absorb_stmts L.
Proof.
  unfold absorb_stmts. rewrite seq_S, rev_app_distr. reflexivity.
Qed.

Lemma loop_body_short (cpu : byte_order) (s : state) :
  (length (bytes_at s) < 12)%nat -> loop_body cpu s = OutOfBounds.
Proof.
  unfold bytes_at, loop_body. intros H.
  rewrite get_unaligned_cpu32_at0, !get_unaligned_cpu32_at.
  remember (skipn (st_k s) (st_key s)) as l eqn:El. clear El.
  do 12 (destruct l as [| ? l]; [reflexivity |]).
  cbn [length] in H. lia.
Qed.

Lemma jhash_switch_short (s : state) :
  0 <= st_length s <= 12 ->
  (length (bytes_at s) < Z.to_nat (st_length s))%nat ->
  jhash_switch s = OutOfBounds.
Proof.
  intros Hlen Hshort. unfold jhash_switch.
  remember (Z.to_nat (st_length s)) as L eqn:EL.
  replace (st_length s) with (Z.of_nat L) by lia.
  rewrite switch_path_shape by lia.
  destruct L as [| L]; [lia |].
  rewrite absorb_stmts_S. cbn [app exec_stmts exec_stmt].
  rewrite read_u8_at.
  assert (E : nth_error (skipn (st_k s) (st_key s)) L = None)
    by (apply nth_error_None; unfold bytes_at in Hshort; lia).
  rewrite E. reflexivity.
Qed.

Lemma jhash_faults_on_short_buffer (cpu : byte_order) (fuel : nat) (s : state) :
  0 <= st_length s < 2 ^ 32 ->
  st_length s <= Z.of_nat fuel ->
  (length (bytes_at s) < Z.to_nat (st_length s))%nat ->
  (s' <- jhash_loop cpu fuel s ;; jhash_switch s') = OutOfBounds.
Proof.
  revert s. induction fuel as [| fuel IH]; intros s Hlen Hf Hshort;
    rewrite jhash_loop_eq; destruct (loop_cond s) eqn:Hc; unfold loop_cond in Hc.
  - apply Z.ltb_lt in Hc. lia.
  - apply Z.ltb_ge in Hc. cbn [bind]. apply jhash_switch_short; [lia | exact Hshort].
  - apply Z.ltb_lt in Hc.
    destruct (le_lt_dec 12 (length (bytes_at s))) as [H12 | H12].
    + remember (bytes_at s) as l eqn:El.
      do 12 take_bytes l H12.
      rename l into rest. symmetry in El.
      rewrite (loop_body_block cpu s _ _ _ _ _ _ _ _ _ _ _ _ _
                 (conj Hc (proj2 Hlen)) El).
      cbn [bind]. set (t := jhash_mix _).
      assert (Hrest : bytes_at (next_block s t) = rest).
      { apply (bytes_at_next_block s t
                 [b; b0; b1; b2; b3; b4; b5; b6; b7; b8; b9; b10]);
          [reflexivity | exact El]. }
      apply IH.
      * rewrite st_length_next_block. lia.
      * rewrite st_length_next_block. lia.
      * rewrite st_length_next_block, Hrest.
        cbn [length] in Hshort. lia.
    + rewrite (loop_body_short cpu s H12). reflexivity.
  - apply Z.ltb_ge in Hc. cbn [bind]. apply jhash_switch_short; [lia | exact Hshort].
Qed.

Lemma bind_assoc {A B C : Type} (r : result A) (f : A -> result B)
      (g : B -> result C) :
  (y <- (x <- r ;; f x) ;; g y) = (x <- r ;; y <- f x ;; g y).
Proof. destruct r; reflexivity. Qed.

(** [jhash] needs exactly [length] bytes: the call returns a value (the
    hash of the first [length] bytes) exactly when the buffer holds that
    many, and its outcome is a read past the end of the buffer exactly
    when the buffer is shorter; it never runs out of steps. *)
Theorem jhash_out_of_bounds (cpu : byte_order) (key : list byte)
      (length initval : Z) :
  0 <= length < 2 ^ 32 ->
  (jhash cpu key length initval = OutOfBounds
   <-> (List.length key < Z.to_nat length)%nat) /\
  (jhash cpu key length initval
   = Ok (jhash_spec cpu (firstn (Z.to_nat length) key) initval)
   <-> (Z.to_nat length <= List.length key)%nat) /\
  ((exists h, jhash cpu key length initval = Ok h)
   <-> (Z.to_nat length <= List.length key)%nat) /\
  jhash cpu key length initval <> OutOfFuel.
Proof.
  intros Hlen.
  destruct (le_lt_dec (Z.to_nat length) (List.length key)) as [Hfit | Hshort].
  - rewrite (jhash_spec_correct cpu key length initval Hlen Hfit).
    split; [split; [discriminate | lia] |].
    split; [split; [intros _; exact Hfit | reflexivity] |].
    split; [| discriminate].
    split; [intros _; exact Hfit | intros _; eexists; reflexivity].
  - assert (E : jhash cpu key length initval = OutOfBounds).
    { unfold jhash, jhash_run.
      rewrite (jhash_faults_on_short_buffer cpu (Z.to_nat length)
                 (jhash_init key length initval)).
      - reflexivity.
      - exact Hlen.
      - cbn [jhash_init st_length]. lia.
      - exact Hshort. }
    rewrite E.
    split; [split; [intros _; exact Hshort | reflexivity] |].
    split; [split; [discriminate | lia] |].
    split; [| discriminate].
    split; [intros [h Hh]; discriminate Hh | lia].
Qed.

Lemma jhash_out_of_bounds_witness :
  (jhash LittleEndian [x66; x6f; x6f] 4 0 = OutOfBounds
   <-> (List.length [x66; x6f; x6f] < Z.to_nat 4)%nat) /\
  (jhash LittleEndian [x66; x6f; x6f] 4 0
   = Ok (jhash_spec LittleEndian (firstn (Z.to_nat 4) [x66; x6f; x6f]) 0)
   <-> (Z.to_nat 4 <= List.length [x66; x6f; x6f])%nat) /\
  ((exists h, jhash LittleEndian [x66; x6f; x6f] 4 0 = Ok h)
   <-> (Z.to_nat 4 <= List.length [x66; x6f; x6f])%nat) /\
  jhash LittleEndian [x66; x6f; x6f] 4 0 <> OutOfFuel.
Proof.
  apply (jhash_out_of_bounds LittleEndian [x66; x6f; x6f] 4 0).
  lia.
Defined.

(** ** The unaligned read *)

Lemma u8_to_u32_inj (x y : byte) : u8_to_u32 x = u8_to_u32 y -> x = y.
Proof.
  unfold u8_to_u32. intros E. apply N2Z.inj in E.
  pose proof (Byte.of_to_N x) as Hx. rewrite E, Byte.of_to_N in Hx.
  now injection Hx.
Qed.

Lemma word_of_bytes_inj (cpu : byte_order) (b0 b1 b2 b3 c0 c1 c2 c3 : byte) :
  word_of_bytes cpu b0 b1 b2 b3 = word_of_bytes cpu c0 c1 c2 c3 ->
  [b0; b1; b2; b3] = [c0; c1; c2; c3].
Proof.
  pose proof (u8_to_u32_range b0). pose proof (u8_to_u32_range b1).
  pose proof (u8_to_u32_range b2). pose proof (u8_to_u32_range b3).
  pose proof (u8_to_u32_range c0). pose proof (u8_to_u32_range c1).
  pose proof (u8_to_u32_range c2). pose proof (u8_to_u32_range c3).
  intros E.
  assert (u8_to_u32 b0 = u8_to_u32 c0 /\ u8_to_u32 b1 = u8_to_u32 c1 /\
          u8_to_u32 b2 = u8_to_u32 c2 /\ u8_to_u32 b3 = u8_to_u32 c3)
    as (E0 & E1 & E2 & E3).
  { destruct cpu;
      [rewrite !word_of_bytes_little in E | rewrite !word_of_bytes_big in E];
      lia. }
  apply u8_to_u32_inj in E0, E1, E2, E3. now subst.
Qed.

Lemma get_unaligned_cpu32_cases (cpu : byte_order) (mem : list byte) (p : nat) :
  match skipn p mem with
  | b0 :: b1 :: b2 :: b3 :: _ =>
      get_unaligned_cpu32 cpu mem p = Ok (word_of_bytes cpu b0 b1 b2 b3)
  | _ => get_unaligned_cpu32 cpu mem p = OutOfBounds
  end.
Proof.
  rewrite get_unaligned_cpu32_at0.
  destruct (skipn p mem) as [| b0 [| b1 [| b2 [| b3 l]]]]; reflexivity.
Qed.

(** [__get_unaligned_cpu32] at offset [p] is defined exactly when four
    bytes lie at [p] inside the buffer, at any alignment; the word it
    returns is a 32-bit value and determines those four bytes. *)
Theorem get_unaligned_cpu32_defined (cpu : byte_order) (mem : list byte)
      (p : nat) :
  ((exists w, get_unaligned_cpu32 cpu mem p = Ok w)
   <-> (p + 4 <= length mem)%nat) /\
  (get_unaligned_cpu32 cpu mem p = OutOfBounds
   <-> (length mem < p + 4)%nat) /\
  (forall w, get_unaligned_cpu32 cpu mem p = Ok w ->
             u32_ok w /\
             forall mem' p', get_unaligned_cpu32 cpu mem' p' = Ok w ->
                             firstn 4 (skipn p' mem') = firstn 4 (skipn p mem)).
Proof.
  pose proof (get_unaligned_cpu32_cases cpu mem p) as Hc.
  pose proof (length_skipn p mem) as Hl.
  destruct (skipn p mem) as [| b0 [| b1 [| b2 [| b3 l]]]] eqn:E;
    cbn [length] in Hl; rewrite Hc.
  1-4: split; [split; [intros [w Hw]; discriminate Hw | lia] |];
       split; [split; [lia | reflexivity] | intros w Hw; discriminate Hw].
  split; [split; [lia | intros _; eexists; reflexivity] |].
  split; [split; [discriminate | lia] |].
  intros w Hw. apply Ok_inj in Hw. subst w.
  split; [apply word_of_bytes_ok |].
  intros mem' p' Hw'.
  pose proof (get_unaligned_cpu32_cases cpu mem' p') as Hc'.
  destruct (skipn p' mem') as [| c0 [| c1 [| c2 [| c3 l']]]];
    rewrite Hc' in Hw'; try discriminate Hw'.
  apply Ok_inj in Hw'. cbn [firstn].
  now apply (word_of_bytes_inj cpu).
Qed.

(** ** The debug [main] *)

Lemma strlen_c_string (s rest : list byte) :
  ~ In x00 s -> strlen (s ++ x00 :: rest) = Ok (length s).
Proof.
  induction s as [| x s IH]; intros Hnul; cbn [app strlen length].
  - reflexivity.
  - destruct (Byte.eqb x x00) eqn:E.
    + apply Byte.byte_dec_bl in E. subst x. exfalso. apply Hnul. now left.
    + rewrite IH by (intros Hin; apply Hnul; now right). reflexivity.
Qed.

Lemma jhash_zero_length (cpu : byte_order) (key : list byte) (initval : Z) :
  jhash cpu key 0 initval = Ok ((0xdeadbeef + initval) mod 2 ^ 32).
Proof.
  unfold jhash, jhash_run.
  change (jhash_loop cpu (Z.to_nat 0) (jhash_init key 0 initval))
    with (Ok (jhash_init key 0 initval)).
  cbn [bind].
  change (jhash_switch (jhash_init key 0 initval))
    with (Ok (jhash_init key 0 initval)).
  cbn [bind jhash_init st_c].
  rewrite (jhash_init_value key), Z.add_0_r. reflexivity.
Qed.

Lemma jhash_c_string (cpu : byte_order) (s rest : list byte) (h : Z) :
  Z.of_nat (length s) < 2 ^ 32 ->
  jhash cpu (s ++ x00 :: rest) (wrap32 (Z.of_nat (length s))) h
  = hash cpu s h.
Proof.
  intros Hlen.
  rewrite (wrap32_small (Z.of_nat (length s))) by (unfold u32_ok; lia).
  rewrite hash_computes_jhash_spec_aux by exact Hlen.
  rewrite jhash_spec_correct; [| lia | rewrite Nat2Z.id, length_app; lia].
  rewrite Nat2Z.id, firstn_app, firstn_all, Nat.sub_diag.
  cbn [firstn]. now rewrite app_nil_r.
Qed.

Lemma main_loop_c_string (cpu : byte_order) (s : list byte)
      (args : list (list byte)) (h0 : Z) :
  ~ In x00 s ->
  Z.of_nat (length s) < 2 ^ 32 ->
  main_loop cpu (c_string s :: args) h0
  = main_loop cpu args (jhash_spec cpu s h0).
Proof.
  intros Hnul Hlen. cbn [main_loop]. unfold c_string.
  rewrite (strlen_c_string s [] Hnul). cbn [bind].
  rewrite (jhash_c_string cpu s [] h0 Hlen).
  rewrite (hash_computes_jhash_spec_aux cpu s h0 Hlen). reflexivity.
Qed.

Lemma main_loop_c_strings (cpu : byte_order) (strs : list (list byte)) :
  Forall (fun s => ~ In x00 s /\ Z.of_nat (length s) < 2 ^ 32) strs ->
  forall h0,
    main_loop cpu (map c_string strs) h0
    = fold_left (fun r s => h <- r ;; hash cpu s h) strs (Ok h0) /\
    exists h, main_loop cpu (map c_string strs) h0 = Ok h.
Proof.
  induction 1 as [| s strs [Hnul Hlen] _ IH]; intros h0;
    cbn [map fold_left].
  - split; [reflexivity | now exists h0].
  - rewrite (main_loop_c_string cpu s _ h0 Hnul Hlen). cbn [bind].
    rewrite (hash_computes_jhash_spec_aux cpu s h0 Hlen).
    apply IH.
Qed.

(** The debug [main] on C strings: the value printed is the chain
    [hash(s_n, ... hash(s_2, hash(s_1, 0)))] over the arguments without
    their terminating NULs; it is always produced, and neither the
    program name [argv[0]] nor the terminators enter it. *)
Theorem main_chains_hash (cpu : byte_order) (prog : list byte)
      (strs : list (list byte)) :
  Forall (fun s => ~ In x00 s /\ Z.of_nat (length s) < 2 ^ 32) strs ->
  main cpu (prog :: map c_string strs)
  = fold_left (fun r s => h <- r ;; hash cpu s h) strs (Ok 0) /\
  exists h, main cpu (prog :: map c_string strs) = Ok h.
Proof.
  intros Hstrs. unfold main. cbn [tl].
  apply (main_loop_c_strings cpu strs Hstrs 0).
Qed.

Lemma main_chains_hash_witness :
  main LittleEndian
    ([x2e; x2f; x6a; x00] :: map c_string [[x66; x6f; x6f]; [x62; x61; x72]])
  = fold_left (fun r s => h <- r ;; hash LittleEndian s h)
              [[x66; x6f; x6f]; [x62; x61; x72]] (Ok 0) /\
  exists h,
    main LittleEndian
      ([x2e; x2f; x6a; x00] :: map c_string [[x66; x6f; x6f]; [x62; x61; x72]])
    = Ok h.
Proof.
  apply (main_chains_hash LittleEndian [x2e; x2f; x6a; x00]
           [[x66; x6f; x6f]; [x62; x61; x72]]).
  repeat constructor; cbn; try lia; intuition discriminate.
Defined.

Lemma main_loop_empty_argument (cpu : byte_order) (args : list (list byte))
      (junk : list byte) (h0 : Z) :
  main_loop cpu (args ++ [x00 :: junk]) h0
  = (h <- main_loop cpu args h0 ;; Ok ((0xdeadbeef + h) mod 2 ^ 32)).
Proof.
  revert h0. induction args as [| arg args IH]; intros h0;
    cbn [app main_loop].
  - change (strlen (x00 :: junk)) with (@Ok nat 0%nat). cbn [bind].
    change (wrap32 (Z.of_nat 0)) with 0.
    rewrite jhash_zero_length. reflexivity.
  - destruct (strlen arg) as [n | |]; cbn [bind]; try reflexivity.
    destruct (jhash cpu arg (wrap32 (Z.of_nat n)) h0) as [h | |];
      cbn [bind]; try reflexivity.
    apply IH.
Qed.

(** An empty argument is not neutral: appending [""] to the command line
    adds 0xdeadbeef (modulo 2^32) to the value printed, whatever the
    other arguments are. *)
Theorem main_empty_argument (cpu : byte_order) (prog : list byte)
      (args : list (list byte)) (junk : list byte) :
  main cpu (prog :: args ++ [x00 :: junk])
  = (h <- main cpu (prog :: args) ;; Ok ((0xdeadbeef + h) mod 2 ^ 32)).
Proof.
  unfold main. cbn [tl]. apply main_loop_empty_argument.
Qed.

(** ** Short keys and trailing zero bytes *)

Lemma u8_to_u32_x00 : u8_to_u32 x00 = 0.
Proof. reflexivity. Qed.

Lemma triple_eq {A B C : Type} (a a' : A) (b b' : B) (c c' : C) :
  a = a' -> b = b' -> c = c' -> (a, b, c) = (a', b', c').
Proof. now intros -> -> ->. Qed.

Lemma absorb_spec_padded (bs : list byte) (t : Z * Z * Z) :
  (length bs <= 12)%nat ->
  absorb_spec bs t = add_words t (block_words LittleEndian (pad_block bs)).
Proof.
  intros H. destruct t as [[a b] c].
  do 13 (try destruct bs as [| ? bs]); try (cbn [length] in H; exfalso; lia).
  all: unfold pad_block; cbn [length Nat.sub repeat app block_words add_words].
  all: rewrite !word_of_bytes_little.
  all: unfold absorb_spec; cbn [firstn skipn le_value].
  all: rewrite ?u8_to_u32_x00.
  all: apply triple_eq; unfold add32, wrap32; apply (f_equal (fun z => z mod 2 ^ 32)); ring.
Qed.

(** A key of 1 to 12 bytes is hashed, on either CPU, as one block padded
    with zero bytes and read as three little-endian words: these are
    added to the initial registers and the final mix is applied. *)
Theorem hash_short_key_padded (cpu : byte_order) (key : list byte)
      (initval : Z) :
  (1 <= length key <= 12)%nat ->
  let v := (0xdeadbeef + Z.of_nat (length key) + initval) mod 2 ^ 32 in
  hash cpu key initval
  = Ok (third (jhash_final
                 (add_words (v, v, v)
                            (block_words LittleEndian (pad_block key))))).
Proof.
  intros Hlen v.
  rewrite hash_computes_jhash_spec_aux by lia.
  unfold jhash_spec, mix_blocks.
  rewrite fold_blocks_short by lia.
  destruct key as [| x key]; [cbn [length] in Hlen; lia |].
  rewrite absorb_spec_padded by lia.
  reflexivity.
Qed.

Lemma hash_short_key_padded_witness :
  let v := (0xdeadbeef + Z.of_nat (length [x66; x6f; x6f]) + 9) mod 2 ^ 32 in
  hash BigEndian [x66; x6f; x6f] 9
  = Ok (third (jhash_final
                 (add_words (v, v, v)
                            (block_words LittleEndian
                                         (pad_block [x66; x6f; x6f]))))).
Proof.
  apply (hash_short_key_padded BigEndian [x66; x6f; x6f] 9).
  cbn. lia.
Defined.

Lemma fold_blocks_snoc (f : list byte -> Z * Z * Z -> Z * Z * Z) (x : byte)
      (bs : list byte) (t : Z * Z * Z) :
  bs <> [] ->
  (length bs mod 12 <> 0)%nat ->
  fold_blocks f (bs ++ [x]) t
  = (fst (fold_blocks f bs t), snd (fold_blocks f bs t) ++ [x]) /\
  (1 <= length (snd (fold_blocks f bs t)) <= 11)%nat.
Proof.
  remember (length bs) as n eqn:En. revert bs t En.
  induction n as [n IH] using lt_wf_ind. intros bs t En Hne Hmod.
  destruct (le_lt_dec n 12) as [Hle | Hgt].
  - assert (1 <= n)%nat by (destruct bs; [congruence | cbn [length] in En; lia]).
    assert (n <> 12)%nat by (intros ->; apply Hmod; reflexivity).
    rewrite (fold_blocks_short f bs) by lia.
    rewrite fold_blocks_short by (rewrite length_app; cbn [length]; lia).
    cbn [fst snd]. split; [reflexivity | lia].
  - assert (H13 : (13 <= length bs)%nat) by lia.
    do 13 take_bytes bs H13.
    cbn [app]. rewrite !fold_blocks_block.
    cbn [length] in En.
    change (b11 :: bs ++ [x]) with ((b11 :: bs) ++ [x]).
    apply (IH (n - 12)%nat); [lia | cbn [length]; lia | discriminate |].
    replace n with (n - 12 + 1 * 12)%nat in Hmod by lia.
    now rewrite Nat.Div0.mod_add in Hmod.
Qed.

Lemma pad_block_zero_byte (bs : list byte) :
  (length bs <= 11)%nat -> pad_block (bs ++ [x00]) = pad_block bs.
Proof.
  intros H. unfold pad_block. rewrite length_app. cbn [length].
  replace (12 - length bs)%nat with (S (12 - (length bs + 1))) by lia.
  cbn [repeat]. now rewrite <- app_assoc.
Qed.

Lemma absorb_spec_zero_byte (bs : list byte) (t : Z * Z * Z) :
  (length bs <= 11)%nat -> absorb_spec (bs ++ [x00]) t = absorb_spec bs t.
Proof.
  intros H.
  rewrite !absorb_spec_padded by (rewrite ?length_app; cbn [length]; lia).
  now rewrite pad_block_zero_byte.
Qed.

(** A trailing zero byte counts only through the length: for a non-empty
    key whose length is not a multiple of 12, appending a zero byte gives
    the hash the key itself has under the next seed. *)
Theorem hash_trailing_zero_byte (cpu : byte_order) (key : list byte)
      (initval : Z) :
  key <> [] ->
  (length key mod 12 <> 0)%nat ->
  Z.of_nat (length key) + 1 < 2 ^ 32 ->
  hash cpu (key ++ [x00]) initval = hash cpu key (add32 initval 1).
Proof.
  intros Hne Hmod Hlen.
  rewrite (hash_computes_jhash_spec_aux cpu key) by lia.
  rewrite hash_computes_jhash_spec_aux
    by (rewrite length_app; cbn [length]; lia).
  f_equal. unfold jhash_spec, mix_blocks.
  assert (Ev : wrap32 (0xdeadbeef + Z.of_nat (length (key ++ [x00])) + initval)
               = wrap32 (0xdeadbeef + Z.of_nat (length key) + add32 initval 1)).
  { rewrite length_app. cbn [length]. unfold add32, wrap32.
    rewrite Zplus_mod_idemp_r. f_equal. lia. }
  rewrite Ev.
  set (v := wrap32 (0xdeadbeef + Z.of_nat (length key) + add32 initval 1)).
  destruct (fold_blocks_snoc (mix_block cpu) x00 key (v, v, v) Hne Hmod)
    as [Esnoc Hrem].
  rewrite Esnoc.
  destruct (fold_blocks (mix_block cpu) key (v, v, v)) as [t rem].
  cbn [fst snd] in Hrem |- *.
  destruct rem as [| y rem]; [cbn [length] in Hrem; lia |].
  cbn [app].
  change (y :: rem ++ [x00]) with ((y :: rem) ++ [x00]).
  rewrite absorb_spec_zero_byte by lia. reflexivity.
Qed.

Lemma hash_trailing_zero_byte_witness :
  hash LittleEndian ([x66; x6f; x6f] ++ [x00]) 0xffffffff
  = hash LittleEndian [x66; x6f; x6f] (add32 0xffffffff 1).
Proof.
  apply (hash_trailing_zero_byte LittleEndian [x66; x6f; x6f] 0xffffffff).
  - discriminate.
  - cbn. lia.
  - cbn. lia.
Defined.

(** At a multiple of 12 the relation stops: the zero byte then opens a
    new block. *)
Example hash_trailing_zero_byte_at_12 :
  let key := [x61; x62; x63; x64; x65; x66; x67; x68; x69; x6a; x6b; x6c] in
  hash LittleEndian (key ++ [x00]) 7 = Ok 1825236719 /\
  hash LittleEndian key (add32 7 1) = Ok 2620748829.
Proof. cbv zeta. split; vm_compute; reflexivity. Qed.

(** ** The cursor *)

Lemma loop_body_fields (cpu : byte_order) (s s1 : state) :
  loop_body cpu s = Ok s1 ->
  st_key s1 = st_key s /\
  st_k s1 = (st_k s + 12)%nat /\
  st_length s1 = sub32 (st_length s) 12.
Proof.
  unfold loop_body.
  destruct (get_unaligned_cpu32 cpu (st_key s) (st_k s)) as [w0 | |];
    cbn [bind]; try discriminate.
  destruct (get_unaligned_cpu32 cpu (st_key s) (st_k s + 4)) as [w1 | |];
    cbn [bind]; try discriminate.
  destruct (get_unaligned_cpu32 cpu (st_key s) (st_k s + 8)) as [w2 | |];
    cbn [bind]; try discriminate.
  destruct (jhash_mix _) as [[a b] c].
  intros E. apply Ok_inj in E. subst s1. repeat split.
Qed.

Lemma jhash_loop_cursor (cpu : byte_order) (fuel : nat) (s s' : state) :
  0 <= st_length s < 2 ^ 32 ->
  jhash_loop cpu fuel s = Ok s' ->
  st_key s' = st_key s /\
  Z.of_nat (st_k s') + st_length s' = Z.of_nat (st_k s) + st_length s /\
  0 <= st_length s' <= 12 /\
  exists n, st_k s' = (st_k s + 12 * n)%nat.
Proof.
  revert s. induction fuel as [| fuel IH]; intros s Hlen;
    rewrite jhash_loop_eq; destruct (loop_cond s) eqn:Hc; unfold loop_cond in Hc.
  - discriminate.
  - apply Z.ltb_ge in Hc. intros E. apply Ok_inj in E. subst s'.
    repeat split; try lia. exists 0%nat. lia.
  - apply Z.ltb_lt in Hc.
    destruct (loop_body cpu s) as [s1 | |] eqn:Hb; cbn [bind]; try discriminate.
    destruct (loop_body_fields cpu s s1 Hb) as (Hkey & Hk & Hl).
    rewrite sub32_12 in Hl by lia.
    intros Hrun.
    destruct (IH s1) as (Hkey' & Hsum & Hrange & n & Hn); [lia | exact Hrun |].
    split; [congruence |]. split; [lia |]. split; [exact Hrange |].
    exists (S n). lia.
  - apply Z.ltb_ge in Hc. intros E. apply Ok_inj in E. subst s'.
    repeat split; try lia. exists 0%nat. lia.
Qed.

(** The bulk loop keeps [k + length] constant and moves the cursor by
    whole blocks: when the buffer holds [length] bytes the loop ends with
    the same buffer, the cursor at a multiple of 12, between 0 and 12
    bytes to go, and cursor plus remainder equal to [length], so the
    switch reads exactly the last bytes of the key. *)
Theorem jhash_loop_consumes_blocks (cpu : byte_order) (key : list byte)
      (length initval : Z) :
  0 <= length < 2 ^ 32 ->
  (Z.to_nat length <= List.length key)%nat ->
  exists s n,
    jhash_loop cpu (Z.to_nat length) (jhash_init key length initval) = Ok s /\
    st_key s = key /\
    st_k s = (12 * n)%nat /\
    0 <= st_length s <= 12 /\
    Z.of_nat (st_k s) + st_length s = length /\
    firstn (Z.to_nat (st_length s)) (bytes_at s)
    = skipn (12 * n) (firstn (Z.to_nat length) key).
Proof.
  intros Hlen Hkey.
  destruct (jhash_loop_spec cpu (Z.to_nat length)
              (jhash_init key length initval))
    as (s & Hrun & _).
  { exact Hlen. }
  { exact Hkey. }
  { cbn [jhash_init st_length]. lia. }
  destruct (jhash_loop_cursor cpu _ (jhash_init key length initval) s Hlen Hrun)
    as (Hk & Hsum & Hrange & n & Hn).
  cbn [jhash_init st_key st_k st_length] in Hk, Hsum, Hn.
  exists s, n.
  split; [exact Hrun |]. split; [exact Hk |]. split; [exact Hn |].
  split; [exact Hrange |]. split; [lia |].
  unfold bytes_at. rewrite Hk, Hn.
  rewrite skipn_firstn_comm. f_equal. lia.
Qed.

Lemma jhash_loop_consumes_blocks_witness :
  exists s n,
    jhash_loop LittleEndian (Z.to_nat 26)
      (jhash_init (repeat x61 30) 26 0) = Ok s /\
    st_key s = repeat x61 30 /\
    st_k s = (12 * n)%nat /\
    0 <= st_length s <= 12 /\
    Z.of_nat (st_k s) + st_length s = 26 /\
    firstn (Z.to_nat (st_length s)) (bytes_at s)
    = skipn (12 * n) (firstn (Z.to_nat 26) (repeat x61 30)).
Proof.
  apply (jhash_loop_consumes_blocks LittleEndian (repeat x61 30) 26 0).
  - lia.
  - cbn. lia.
Defined.

(** ** The hash as a bucket index *)

Lemma jhash_value_ok (cpu : byte_order) (key : list byte) (length initval h : Z) :
  jhash cpu key length initval = Ok h -> u32_ok h.
Proof.
  unfold jhash, jhash_run.
  destruct (jhash_loop cpu (Z.to_nat length) (jhash_init key length initval))
    as [s0 | |] eqn:Hloop; cbn [bind]; try discriminate.
  destruct (jhash_switch s0) as [s1 | |] eqn:Hsw; cbn [bind]; try discriminate.
  intros E. apply Ok_inj in E. subst h.
  assert (Hok : regs_ok (regs s1)).
  { apply (exec_stmts_regs_ok (switch_path (st_length s0)) s0 s1);
      [| exact Hsw].
    apply (jhash_loop_regs_ok cpu _ _ _ (jhash_init_ok key length initval) Hloop). }
  apply Hok.
Qed.

(** Masking a hash with [jhash_mask(n)] always gives an index into a
    table of [jhash_size(n)] buckets, namely the hash modulo [2^n]. *)
Theorem jhash_bucket_index (cpu : byte_order) (key : list byte)
      (length initval h n : Z) :
  0 <= n < 32 ->
  jhash cpu key length initval = Ok h ->
  0 <= Z.land h (jhash_mask n) < jhash_size n /\
  Z.land h (jhash_mask n) = h mod 2 ^ n.
Proof.
  intros Hn Hh.
  assert (Hp : 0 < 2 ^ n) by (apply Z.pow_pos_nonneg; lia).
  assert (Hlt : 2 ^ n < 2 ^ 32) by (apply Z.pow_lt_mono_r; lia).
  assert (Hsize : jhash_size n = 2 ^ n).
  { unfold jhash_size, shl32. rewrite Z.shiftl_mul_pow2 by lia.
    rewrite Z.mul_1_l. apply wrap32_small. unfold u32_ok. lia. }
  assert (Hmask : jhash_mask n = Z.ones n).
  { unfold jhash_mask, sub32. rewrite Hsize, Z.ones_equiv, <- Z.sub_1_r.
    apply wrap32_small. unfold u32_ok. lia. }
  rewrite Hmask, Hsize, Z.land_ones by lia.
  split; [apply Z.mod_pos_bound; exact Hp | reflexivity].
Qed.

Lemma jhash_bucket_index_witness :
  0 <= Z.land 3784272022 (jhash_mask 10) < jhash_size 10 /\
  Z.land 3784272022 (jhash_mask 10) = 3784272022 mod 2 ^ 10.
Proof.
  apply (jhash_bucket_index LittleEndian [x66; x6f; x6f] 3 0 3784272022 10).
  - lia.
  - vm_compute. reflexivity.
Defined.
